(** * procrastinate: the psycopg3 connector

    A shallow embedding of [procrastinate/psycopg3_connector.py]: the two
    decorators [wrap_exceptions] and [wrap_query_exceptions], the pool
    life cycle of [Psycopg3Connector] ([open_async], [close_async], [pool]),
    the parameter adaptation [_wrap_json], the three query methods and the
    listen/notify loop ([listen_notify], [_loop_notify]).

    Coroutines are state transformers over the state of whatever they talk
    to; the driver ([psycopg], [psycopg_pool]) is an interface whose
    operations may return, raise or never complete. *)

From Stdlib Require Import ZArith String List Bool Lia.
From stdpp Require Import base option list gmap strings pretty.

Set Warnings "-register-all".

Local Open Scope Z_scope.
Local Open Scope string_scope.

(** ** Python objects that travel through the connector *)

(** A callable is only ever passed along ([json_dumps], [json_loads]); it is
    represented by its identity. *)
Inductive callable : Type :=
| Callable (name : string).

(** The values that can be given as query arguments.  [OJsonb] is
    [psycopg.types.json.Jsonb(obj, dumps=...)]. *)
Inductive pyobj : Type :=
| ONone
| OBool (b : bool)
| OInt (n : Z)
| OStr (s : string)
| OList (items : list pyobj)
| ODict (items : list (string * pyobj))
| OJsonb (obj : pyobj) (dumps : option callable).

(** [isinstance(value, dict)] *)
Definition isinstance_dict (value : pyobj) : bool :=
  match value with
  | ODict _ => true
  | _ => false
  end.

(** ** Exceptions

    The classes of [psycopg] the module catches, the classes of
    [procrastinate.exceptions] it raises, and every other Python exception.
    [psycopg.errors.UniqueViolation] and [psycopg.errors.OperationalError]
    are subclasses of [psycopg.Error]; [psycopg_Error] stands for the
    instances of [psycopg.Error] that belong to neither. *)
Inductive exn : Type :=
| psycopg_UniqueViolation (message : string) (diag_constraint_name : option string)
| psycopg_OperationalError (message : string)
| psycopg_Error (message : string)
| UniqueViolation (constraint_name : option string)
| ConnectorException (message : option string) (cause : option exn)
| AppNotOpen
| PyException (class_name message : string).

(** [isinstance(exc, psycopg.Error)] *)
Definition is_psycopg_Error (exc : exn) : bool :=
  match exc with
  | psycopg_UniqueViolation _ _ | psycopg_OperationalError _ | psycopg_Error _ => true
  | _ => false
  end.

(** [needle in haystack] on [str] *)
Fixpoint str_contains (needle haystack : string) : bool :=
  String.prefix needle haystack
  || match haystack with
     | EmptyString => false
     | String _ rest => str_contains needle rest
     end.

(** ** Coroutines *)

(** What awaiting a coroutine gives: a value, an exception, or nothing yet
    ([Pending]: the coroutine has not completed). *)
Inductive outcome (A : Type) : Type :=
| Return (a : A)
| Raise (exc : exn)
| Pending.
Arguments Return {A} a.
Arguments Raise {A} exc.
Arguments Pending {A}.

Definition M (S A : Type) : Type := S -> outcome A * S.

Definition ret {S A} (a : A) : M S A := fun s => (Return a, s).
Definition raise {S A} (exc : exn) : M S A := fun s => (Raise exc, s).
Definition bind {S A B} (m : M S A) (k : A -> M S B) : M S B :=
  fun s =>
    match m s with
    | (Return a, s') => k a s'
    | (Raise exc, s') => (Raise exc, s')
    | (Pending, s') => (Pending, s')
    end.

Declare Scope coro_scope.
Delimit Scope coro_scope with coro.
Notation "'let*' x := m 'in' k" := (bind m (fun x => k))
  (at level 10, x name, m at level 100, k at level 200) : coro_scope.
Local Open Scope coro_scope.

(** ** The decorators *)

(** [wrap_exceptions]: psycopg3 errors become connector exceptions. *)
Definition wrap_exceptions {S A} (coro : M S A) : M S A :=
  fun s =>
    match coro s with
    | (Raise (psycopg_UniqueViolation _ constraint_name), s') =>
        (Raise (UniqueViolation constraint_name), s')
    | (Raise exc, s') =>
        if is_psycopg_Error exc
        then (Raise (ConnectorException None (Some exc)), s')
        else (Raise exc, s')
    | (r, s') => (r, s')
    end.

Definition server_closed : string := "server closed the connection unexpectedly".

Definition could_not_get_message (max_tries : Z) : string :=
  "Could not get a valid connection after " ++ pretty max_tries ++ " tries".

(** The [for _ in range(max_tries)] loop of [wrap_query_exceptions] and the
    [raise ... from final_exc] that follows it; [tries] iterations are left. *)
Fixpoint retry_loop {S A} (coro : M S A) (max_tries : Z) (tries : nat)
    (final_exc : option exn) : M S A :=
  match tries with
  | O => raise (ConnectorException (Some (could_not_get_message max_tries)) final_exc)
  | Datatypes.S tries' =>
      fun s =>
        match coro s with
        | (Raise (psycopg_OperationalError message as exc), s') =>
            if str_contains server_closed message
            then retry_loop coro max_tries tries' (Some exc) s'
            else (Raise exc, s')
        | (r, s') => (r, s')
        end
  end.

(** ** The connector object *)

(** A [psycopg_pool.AsyncConnectionPool]: its identity and its [max_size]. *)
Record Pool : Type := mkPool {
  pool_id : nat;
  max_size : Z
}.

(** The attributes [__init__] gives a [Psycopg3Connector]; [_pool_args] are
    the keyword arguments kept for the pool constructor. *)
Record Psycopg3Connector : Type := mkConnector {
  json_dumps : option callable;
  json_loads : option callable;
  _pool : option Pool;
  _pool_args : list (string * pyobj);
  _pool_externally_set : bool
}.

Definition set_pool (self : Psycopg3Connector) (pool : option Pool) : Psycopg3Connector :=
  mkConnector (json_dumps self) (json_loads self) pool (_pool_args self)
    (_pool_externally_set self).

Definition set_pool_externally_set (self : Psycopg3Connector) (b : bool) : Psycopg3Connector :=
  mkConnector (json_dumps self) (json_loads self) (_pool self) (_pool_args self) b.

(** [args[0]._pool.max_size + 1], or 1 when evaluating it raises: here, when
    [_pool] is [None]. *)
Definition max_tries_of (self : Psycopg3Connector) : Z :=
  match _pool self with
  | Some pool => max_size pool + 1
  | None => 1
  end.

(** [wrap_query_exceptions]: [coro] is the decorated method, [self] its first
    positional argument.  [range(n)] is empty for [n <= 0]. *)
Definition wrap_query_exceptions {S A} (coro : Psycopg3Connector -> M S A)
    (self : Psycopg3Connector) : M S A :=
  let max_tries := max_tries_of self in
  retry_loop (coro self) max_tries (Z.to_nat max_tries) None.

(** ** Iterables

    An [Iterable[str]] as a [for] loop sees it.  A sequence (a list, a tuple)
    gives all its items on every pass; an iterator (a generator, the result
    of [iter]) gives what is left of it and is empty afterwards. *)
Inductive Iterable : Type :=
| Sequence (items : list string)
| Iterator (remaining : list string).

(** What a [for] loop over the iterable goes through now. *)
Definition yields (it : Iterable) : list string :=
  match it with
  | Sequence items => items
  | Iterator remaining => remaining
  end.

(** The iterable once a [for] loop over it has run to its end. *)
Definition after_for (it : Iterable) : Iterable :=
  match it with
  | Sequence items => Sequence items
  | Iterator _ => Iterator []
  end.

(** ** The driver

    What the module asks of [psycopg] and [psycopg_pool].  [World] is the
    state of everything on the other side of the interface (the pools, the
    sessions, the server), and each awaited call is a coroutine over it. *)

(** A [psycopg.AsyncConnection], by identity. *)
Definition Connection : Type := nat.

(** [psycopg.sql.SQL(template).format(channel_name=psycopg.sql.Identifier(name))]:
    the statement is a composition, the channel name stays an identifier. *)
Inductive Query : Type :=
| SQL_format_Identifier (template : string) (channel_name : string)
| SQL_text (query : string).

Class Driver (World : Type) : Type := {
  (** the constructor [psycopg_pool.AsyncConnectionPool], given [pool_args] *)
  AsyncConnectionPool : list (string * pyobj) -> M World Pool;
  (** [await pool.open()], [await pool.close()] *)
  pool_open : Pool -> M World unit;
  pool_close : Pool -> M World unit;
  (** entering and leaving [async with pool.connection() as connection] *)
  pool_connection_enter : Pool -> M World Connection;
  pool_connection_exit : Pool -> Connection -> M World unit;
  (** [await connection.set_autocommit(value)] *)
  connection_set_autocommit : Connection -> bool -> M World unit;
  (** [await connection.execute(query)] *)
  connection_execute : Connection -> Query -> M World unit;
  (** [connection.closed] *)
  connection_closed : Connection -> World -> bool;
  (** one step of [async for _ in connection.notifies()]: the channel of
      the next notification, or [None] when the generator ends *)
  notifies_next : Connection -> M World (option string);
  (** [await cursor.execute(query, params)] inside
      [async with connection.cursor() as cursor], then nothing,
      [await cursor.fetchone()] or [await cursor.fetchall()] *)
  cursor_execute : Connection -> string -> gmap string pyobj -> M World unit;
  cursor_fetchone : Connection -> M World (option (gmap string pyobj));
  cursor_fetchall : Connection -> M World (list (gmap string pyobj));
  (** [sql.queries["listen_queue"]] *)
  listen_queue : string
}.

(** What the connector is seen doing: each call through the interface, with
    [ok] telling whether it returned, and each operation on the
    [asyncio.Event]. *)
Inductive action : Type :=
| ACreatePool (pool : Pool)
| APoolOpen (pool : Pool) (ok : bool)
| APoolClose (pool : Pool) (ok : bool)
| AEnter (connection : Connection)
| AExit (connection : Connection)
| ASetAutocommit (connection : Connection) (value ok : bool)
| AExecute (connection : Connection) (query : Query) (ok : bool)
| ACursorExecute (connection : Connection) (query : string)
    (params : gmap string pyobj) (ok : bool)
| AEventSet
| AEventClear
| AWarning (message : string).

(** The state a method of the connector runs in: the world, the flag of the
    [asyncio.Event] it was given as this method's own calls leave it, and the
    record of its actions. *)
Record Env (World : Type) : Type := mkEnv {
  world : World;
  event_is_set : bool;
  log : list action
}.
Arguments mkEnv {World} world event_is_set log.
Arguments world {World} e.
Arguments event_is_set {World} e.
Arguments log {World} e.

Definition is_Return {A} (r : outcome A) : bool :=
  match r with
  | Return _ => true
  | _ => false
  end.

Section Methods.
Context {World : Type} `{Driver World}.

(** An awaited call through the interface, recorded with its success. *)
Definition call {A} (m : M World A) (act : bool -> action) : M (Env World) A :=
  fun e =>
    let (r, w) := m (world e) in
    (r, mkEnv w (event_is_set e) (log e ++ [act (is_Return r)])).

Definition tell (a : action) : M (Env World) unit :=
  fun e => (Return tt, mkEnv (world e) (event_is_set e) (log e ++ [a])).

(** [event.set()] *)
Definition event_set : M (Env World) unit :=
  fun e => (Return tt, mkEnv (world e) true (log e ++ [AEventSet])).

(** [async with pool.connection() as connection: body].  The block is left,
    and the connection given back, when [body] returns or raises. *)
Definition with_connection {A} (pool : Pool) (body : Connection -> M (Env World) A)
    : M (Env World) A :=
  fun e =>
    match pool_connection_enter pool (world e) with
    | (Return connection, w) =>
        match body connection (mkEnv w (event_is_set e) (log e ++ [AEnter connection])) with
        | (Pending, e2) => (Pending, e2)
        | (r, e2) =>
            match pool_connection_exit pool connection (world e2) with
            | (Return _, w3) =>
                (r, mkEnv w3 (event_is_set e2) (log e2 ++ [AExit connection]))
            | (Raise exc, w3) =>
                (Raise exc, mkEnv w3 (event_is_set e2) (log e2 ++ [AExit connection]))
            | (Pending, w3) =>
                (Pending, mkEnv w3 (event_is_set e2) (log e2 ++ [AExit connection]))
            end
        end
    | (Raise exc, w) => (Raise exc, mkEnv w (event_is_set e) (log e))
    | (Pending, w) => (Pending, mkEnv w (event_is_set e) (log e))
    end.

(** *** Pool life cycle: these assign attributes of [self], which is
    therefore part of their state. *)

Definition _create_pool (pool_args : list (string * pyobj)) : M (Env World) Pool :=
  wrap_exceptions
    (fun e =>
       match AsyncConnectionPool pool_args (world e) with
       | (Return pool, w) =>
           (Return pool, mkEnv w (event_is_set e) (log e ++ [ACreatePool pool]))
       | (r, w) => (r, mkEnv w (event_is_set e) (log e))
       end).

(** The last statement of [open_async]: [await self._pool.open()]. *)
Definition ensure_open (self : Psycopg3Connector) (pool : Pool)
    : M (Psycopg3Connector * Env World) unit :=
  fun '(_, e) =>
    let (r, e') := call (pool_open pool) (APoolOpen pool) e in
    (r, (self, e')).

Definition open_async (pool : option Pool) : M (Psycopg3Connector * Env World) unit :=
  fun '(self, e) =>
    match _pool self with
    | Some _ => (Return tt, (self, e))
    | None =>
        match pool with
        | Some p =>
            let self := set_pool_externally_set self true in
            let self := set_pool self (Some p) in
            ensure_open self p (self, e)
        | None =>
            match _create_pool (_pool_args self) e with
            | (Return p, e') =>
                let self := set_pool self (Some p) in
                ensure_open self p (self, e')
            | (Raise exc, e') => (Raise exc, (self, e'))
            | (Pending, e') => (Pending, (self, e'))
            end
        end
    end.

Definition close_async : M (Psycopg3Connector * Env World) unit :=
  wrap_exceptions
    (fun '(self, e) =>
       match _pool self with
       | None => (Return tt, (self, e))
       | Some p =>
           if _pool_externally_set self
           then (Return tt, (self, e))
           else
             match call (pool_close p) (APoolClose p) e with
             | (Return _, e') => (Return tt, (set_pool self None, e'))
             | (r, e') => (r, (self, e'))
             end
       end).

(** The [pool] property. *)
Definition pool {S} (self : Psycopg3Connector) : M S Pool :=
  match _pool self with
  | None => raise AppNotOpen
  | Some p => ret p
  end.

(** *** Query execution *)

Definition _wrap_json (self : Psycopg3Connector) (arguments : gmap string pyobj)
    : gmap string pyobj :=
  (fun value =>
     if isinstance_dict value then OJsonb value (json_dumps self) else value)
  <$> arguments.

Definition execute_query_async (query : string) (arguments : gmap string pyobj)
    : Psycopg3Connector -> M (Env World) unit :=
  fun self =>
    wrap_exceptions
      (wrap_query_exceptions
         (fun self =>
            let* p := pool self in
            with_connection p (fun connection =>
              let params := _wrap_json self arguments in
              call (cursor_execute connection query params)
                (ACursorExecute connection query params)))
         self).

Definition execute_query_one_async (query : string) (arguments : gmap string pyobj)
    : Psycopg3Connector -> M (Env World) (option (gmap string pyobj)) :=
  fun self =>
    wrap_exceptions
      (wrap_query_exceptions
         (fun self =>
            let* p := pool self in
            with_connection p (fun connection =>
              let params := _wrap_json self arguments in
              let* _ := call (cursor_execute connection query params)
                          (ACursorExecute connection query params) in
              fun e =>
                let (r, w) := cursor_fetchone connection (world e) in
                (r, mkEnv w (event_is_set e) (log e))))
         self).

Definition execute_query_all_async (query : string) (arguments : gmap string pyobj)
    : Psycopg3Connector -> M (Env World) (list (gmap string pyobj)) :=
  fun self =>
    wrap_exceptions
      (wrap_query_exceptions
         (fun self =>
            let* p := pool self in
            with_connection p (fun connection =>
              let params := _wrap_json self arguments in
              let* _ := call (cursor_execute connection query params)
                          (ACursorExecute connection query params) in
              fun e =>
                let (r, w) := cursor_fetchall connection (world e) in
                (r, mkEnv w (event_is_set e) (log e))))
         self).

(** *** Listen/notify

    The two [while True] loops and the [async for] run on [fuel]: a loop
    that has not ended when it is spent is [Pending]. *)

Definition listen_disabled_message : string :=
  "Listen/Notify capabilities disabled because maximum pool size" ++ "is set to 1".

(** [async for _ in notifies: event.set()] *)
Fixpoint async_for_notifies (fuel : nat) (connection : Connection)
    : M (Env World) unit :=
  match fuel with
  | O => fun e => (Pending, e)
  | Datatypes.S fuel' =>
      fun e =>
        match notifies_next connection (world e) with
        | (Return (Some _), w) =>
            (let* _ := event_set in async_for_notifies fuel' connection)
              (mkEnv w (event_is_set e) (log e))
        | (Return None, w) => (Return tt, mkEnv w (event_is_set e) (log e))
        | (Raise exc, w) => (Raise exc, mkEnv w (event_is_set e) (log e))
        | (Pending, w) => (Pending, mkEnv w (event_is_set e) (log e))
        end
  end.

(** The [while True] of [_loop_notify]. *)
Fixpoint _loop_notify_while (fuel : nat) (connection : Connection)
    : M (Env World) unit :=
  match fuel with
  | O => fun e => (Pending, e)
  | Datatypes.S fuel' =>
      fun e =>
        if connection_closed connection (world e)
        then (Return tt, e)
        else
          match async_for_notifies fuel' connection e with
          | (Return _, e') => _loop_notify_while fuel' connection e'
          | (Raise (psycopg_OperationalError _), e') =>
              _loop_notify_while fuel' connection e'
          | (r, e') => (r, e')
          end
  end.

Definition _loop_notify (fuel : nat) (connection : Connection) : M (Env World) unit :=
  wrap_exceptions (_loop_notify_while fuel connection).

Definition listen_query (channel_name : string) : Query :=
  SQL_format_Identifier listen_queue channel_name.

(** The body of [for channel_name in channels], once for each name the
    iterable gives: [await connection.execute(query)]. *)
Fixpoint for_channel_names (connection : Connection) (names : list string)
    : M (Env World) unit :=
  match names with
  | [] => ret tt
  | channel_name :: rest =>
      let query := listen_query channel_name in
      let* _ := call (connection_execute connection query)
                  (AExecute connection query) in
      for_channel_names connection rest
  end.

(** [for channel_name in channels: await connection.execute(query)]: the
    loop goes through what [channels] gives at this pass. *)
Definition for_channels (connection : Connection) (channels : Iterable)
    : M (Env World) unit :=
  for_channel_names connection (yields channels).

(** The [while True] of [listen_notify].  The next pass is reached only when
    the block has returned, that is with the [for] loop over [channels] run
    to its end: it finds [channels] as that loop left it. *)
Fixpoint listen_notify_while (fuel : nat) (self : Psycopg3Connector)
    (channels : Iterable) : M (Env World) unit :=
  match fuel with
  | O => fun e => (Pending, e)
  | Datatypes.S fuel' =>
      let* p := pool self in
      let* _ :=
        with_connection p (fun connection =>
          let* _ := call (connection_set_autocommit connection true)
                      (ASetAutocommit connection true) in
          let* _ := for_channels connection channels in
          let* _ := event_set in
          _loop_notify fuel' connection) in
      listen_notify_while fuel' self (after_for channels)
  end.

Definition listen_notify (fuel : nat) (self : Psycopg3Connector)
    (channels : Iterable) : M (Env World) unit :=
  wrap_exceptions
    (let* p := pool self in
     if (max_size p =? 1)%Z
     then tell (AWarning listen_disabled_message)
     else listen_notify_while fuel self channels).
End Methods.

(** ** Vocabulary of the statements *)

(** A coroutine that counts how often it is awaited. *)
Definition counted {S A} (coro : M S A) : M (S * nat) A :=
  fun '(s, n) =>
    let (r, s') := coro s in
    (r, (s', Datatypes.S n)).

(** The state [n] consecutive attempts of [coro] leave behind. *)
Fixpoint state_after {S A} (coro : M S A) (n : nat) (s : S) : S :=
  match n with
  | O => s
  | Datatypes.S n' => state_after coro n' (snd (coro s))
  end.

(** The outcome is an operational failure whose message says that the server
    closed the connection unexpectedly. *)
Definition is_stale_failure {A} (r : outcome A) : bool :=
  match r with
  | Raise (psycopg_OperationalError message) => str_contains server_closed message
  | _ => false
  end.

Definition exc_of {A} (r : outcome A) : option exn :=
  match r with
  | Raise exc => Some exc
  | _ => None
  end.

(** The value of [final_exc] once [k] attempts from [s] have failed. *)
Definition final_exc_after {S A} (coro : M S A) (k : nat) (s : S)
    (final_exc : option exn) : option exn :=
  match k with
  | O => final_exc
  | Datatypes.S k' => exc_of (fst (coro (state_after coro k' s)))
  end.

(** Attempts [0 .. k-1] from [s] all fail that way. *)
Definition stale_attempts {S A} (coro : M S A) (k : nat) (s : S) : Prop :=
  forall i, (i < k)%nat -> is_stale_failure (fst (coro (state_after coro i s))) = true.

(** *** A monitor for the record of a listen/notify run

    It remembers the connection of the [async with] block the run is in, if
    any, and the channels whose subscribe statement has returned on that
    connection since the block was entered.  It rejects a record in which the
    event is cleared, or is set when some channel of [channels] has no
    returned subscribe statement on the current connection. *)
Definition monitor_state : Type := option (Connection * list string).

Definition subscribed (channels subs : list string) : bool :=
  forallb (fun channel_name => existsb (String.eqb channel_name) subs) channels.

Definition monitor_step (listen_template : string) (channels : list string)
    (st : monitor_state) (a : action) : option monitor_state :=
  match a with
  | AEnter connection => Some (Some (connection, []))
  | AExit _ => Some None
  | AExecute connection (SQL_format_Identifier template channel_name) true =>
      match st with
      | Some (current, subs) =>
          if Nat.eqb connection current && String.eqb template listen_template
          then Some (Some (current, (subs ++ [channel_name])%list))
          else Some st
      | None => Some st
      end
  | AEventSet =>
      match st with
      | Some (_, subs) => if subscribed channels subs then Some st else None
      | None => None
      end
  | AEventClear => None
  | _ => Some st
  end.

Fixpoint monitor_run (listen_template : string) (channels : list string)
    (st : monitor_state) (record : list action) : option monitor_state :=
  match record with
  | [] => Some st
  | a :: rest =>
      match monitor_step listen_template channels st a with
      | Some st' => monitor_run listen_template channels st' rest
      | None => None
      end
  end.

Definition monitor_accepts (listen_template : string) (channels : list string)
    (record : list action) : bool :=
  match monitor_run listen_template channels None record with
  | Some _ => true
  | None => false
  end.

(** From [e] to [e'] the record grew by actions that take the monitor from
    [st] to [st'], and a set event stayed set. *)
Definition advances {World} (listen_template : string) (channels : list string)
    (st : monitor_state) (e e' : Env World) (st' : monitor_state) : Prop :=
  (event_is_set e = true -> event_is_set e' = true)
  /\ exists delta,
       log e' = (log e ++ delta)%list
       /\ monitor_run listen_template channels st delta = Some st'.

(** *** What the monitor enforces, said on the record itself *)

(** [before] ends inside the [async with] block of [connection]: nothing
    was entered or left since, and in that block the subscribe statement of
    every channel of [chans] has returned on [connection]. *)
Definition subscribed_block (listen_template : string) (chans : list string)
    (connection : Connection) (before : list action) : Prop :=
  exists earlier block,
    before = (earlier ++ AEnter connection :: block)%list
    /\ (forall c, ~ In (AEnter c) block /\ ~ In (AExit c) block)
    /\ forall channel_name,
         In channel_name chans ->
         In (AExecute connection (SQL_format_Identifier listen_template channel_name) true)
           block.

(** Every [event.set()] of the record comes at such a point. *)
Definition set_after_subscriptions (listen_template : string) (channels : list string)
    (record : list action) : Prop :=
  forall before after,
    record = (before ++ AEventSet :: after)%list ->
    exists connection, subscribed_block listen_template channels connection before.

(** The state of the monitor describes the record read so far. *)
Definition monitor_inv (listen_template : string) (before : list action)
    (st : monitor_state) : Prop :=
  match st with
  | None => True
  | Some (connection, subs) => subscribed_block listen_template subs connection before
  end.

(** *** A driver to run the methods on

    The world is a clock that every awaited call advances.  A connection is
    named after the time it was handed out and is closed five ticks later;
    its notification stream alternates between a notification and an
    operational failure; statements fail from time 16 on. *)
Definition tick {A} (a : A) : M nat A := fun t => (Return a, Datatypes.S t).

#[local] Instance clock_driver : Driver nat := {|
  AsyncConnectionPool := fun _ t => (Return (mkPool t 10), Datatypes.S t);
  pool_open := fun _ => tick tt;
  pool_close := fun _ => tick tt;
  pool_connection_enter := fun _ t => (Return t, Datatypes.S t);
  pool_connection_exit := fun _ _ => tick tt;
  connection_set_autocommit := fun _ _ => tick tt;
  connection_execute := fun _ _ t =>
    if Nat.leb 16 t then (Raise (psycopg_Error "syntax error"), Datatypes.S t)
    else (Return tt, Datatypes.S t);
  connection_closed := fun connection t => Nat.leb (connection + 5) t;
  notifies_next := fun _ t =>
    if Nat.even t then (Return (Some "procrastinate_any_queue"), Datatypes.S t)
    else (Raise (psycopg_OperationalError "connection lost"), Datatypes.S t);
  cursor_execute := fun _ _ _ => tick tt;
  cursor_fetchone := fun _ => tick None;
  cursor_fetchall := fun _ => tick [];
  listen_queue := "LISTEN {channel_name};"
|}.

(** An operation that fails with the stale-connection message until the
    state reaches [k], then returns the state. *)
Definition stale_until (k : nat) : M nat nat :=
  fun n =>
    if Nat.ltb n k
    then (Raise (psycopg_OperationalError
                   "consuming input failed: server closed the connection unexpectedly"),
          Datatypes.S n)
    else (Return n, Datatypes.S n).

Definition connector_with (pool : option Pool) : Psycopg3Connector :=
  mkConnector None None pool [] false.

(** *** Further vocabulary *)

(** What the two [except] clauses of [wrap_exceptions] make of an exception. *)
Definition classify (exc : exn) : exn :=
  match exc with
  | psycopg_UniqueViolation _ constraint_name => UniqueViolation constraint_name
  | psycopg_OperationalError _ | psycopg_Error _ => ConnectorException None (Some exc)
  | _ => exc
  end.

(** A caller of the life cycle: [await connector.open_async(pool)] or
    [await connector.close_async()], one after the other, going on after an
    exception and stopping at a call that does not complete. *)
Inductive lifecycle_call : Type :=
| CallOpen (pool : option Pool)
| CallClose.

Definition lifecycle_step {World} `{Driver World} (c : lifecycle_call)
    : M (Psycopg3Connector * Env World) unit :=
  match c with
  | CallOpen pool => open_async pool
  | CallClose => close_async
  end.

Fixpoint run_calls {World} `{Driver World} (calls : list lifecycle_call)
    (st : Psycopg3Connector * Env World) : Psycopg3Connector * Env World :=
  match calls with
  | [] => st
  | c :: rest =>
      match lifecycle_step c st with
      | (Pending, st') => st'
      | (_, st') => run_calls rest st'
      end
  end.

(** The flag [_pool_externally_set] tells where the pool in place came from:
    without a pool it is unset; set, the pool was an argument of one of the
    [calls]; unset, the pool was built by the connector, as the record shows. *)
Definition ownership_recorded {World} (calls : list lifecycle_call)
    (st : Psycopg3Connector * Env World) : Prop :=
  match _pool (fst st) with
  | None => _pool_externally_set (fst st) = false
  | Some q =>
      if _pool_externally_set (fst st)
      then In (CallOpen (Some q)) calls
      else In (ACreatePool q) (log (snd st))
  end.

(** *** Scoped use of connections

    [scoped cur record] reads a record from a point where the connection
    [cur] is held, if any.  It rejects entering a block while a connection
    is held, leaving a block of a connection that is not the one held, and a
    statement or a change of autocommit on a connection that is not held; it
    gives the connection held at the end. *)
Definition on_held (cur : option Connection) (connection : Connection) : bool :=
  match cur with
  | Some held => Nat.eqb connection held
  | None => false
  end.

Fixpoint scoped (cur : option Connection) (record : list action)
    : option (option Connection) :=
  match record with
  | [] => Some cur
  | AEnter connection :: rest =>
      match cur with
      | None => scoped (Some connection) rest
      | Some _ => None
      end
  | AExit connection :: rest =>
      if on_held cur connection then scoped None rest else None
  | ASetAutocommit connection _ _ :: rest
  | AExecute connection _ _ :: rest
  | ACursorExecute connection _ _ _ :: rest =>
      if on_held cur connection then scoped cur rest else None
  | _ :: rest => scoped cur rest
  end.

(** From [e] to [e'] the record grew by actions that [scoped] reads from
    [cur] to [cur']. *)
Definition scope_advances {World} (cur : option Connection) (e e' : Env World)
    (cur' : option Connection) : Prop :=
  exists delta, log e' = (log e ++ delta)%list /\ scoped cur delta = Some cur'.

(** From [e] to [e'] the record grew by actions that all satisfy [P]. *)
Definition grows {World} (P : action -> Prop) (e e' : Env World) : Prop :=
  exists delta, log e' = (log e ++ delta)%list /\ Forall P delta.

(** The number of blocks entered in a record. *)
Definition is_AEnter (a : action) : bool :=
  match a with
  | AEnter _ => true
  | _ => false
  end.

Definition entered (record : list action) : nat :=
  length (List.filter is_AEnter record).

(** What a query method may do: enter a block, leave it, and in between
    execute [query] with the parameters [params]. *)
Definition query_action (query : string) (params : gmap string pyobj) (a : action)
    : Prop :=
  match a with
  | AEnter _ | AExit _ => True
  | ACursorExecute _ q ps _ => q = query /\ ps = params
  | _ => False
  end.

(** From [e] to [e'] a query method went on as it may: the record grew by
    actions of [query_action] that [scoped] reads from no connection held to
    [cur'], entering at most [n] blocks. *)
Definition query_advances {World} (query : string) (params : gmap string pyobj)
    (n : nat) (e e' : Env World) (cur' : option Connection) : Prop :=
  exists delta,
    log e' = (log e ++ delta)%list
    /\ scoped None delta = Some cur'
    /\ Forall (query_action query params) delta
    /\ (entered delta <= n)%nat.

Definition is_Pending {A} (r : outcome A) : bool :=
  match r with
  | Pending => true
  | _ => false
  end.

(** *** The arguments of the pool: [_adapt_pool_args]

    A keyword argument of the pool is a plain object, a callable, a
    dictionary of further arguments, or the [configure] closure that
    [_adapt_pool_args] builds around [base_configure] and [json_loads]. *)
Inductive pool_arg : Type :=
| ArgObject (value : pyobj)
| ArgCallable (f : callable)
| ArgKwargs (items : list (string * pool_arg))
| ArgConfigure (base_configure : option pool_arg) (json_loads : option callable).

(** [bool(value)] *)
Definition pyobj_truthy (value : pyobj) : bool :=
  match value with
  | ONone => false
  | OBool b => b
  | OInt n => negb (n =? 0)%Z
  | OStr s => negb (String.eqb s "")
  | OList [] => false
  | OList (_ :: _) => true
  | ODict [] => false
  | ODict (_ :: _) => true
  | OJsonb _ _ => true
  end.

Definition pool_arg_truthy (value : pool_arg) : bool :=
  match value with
  | ArgObject v => pyobj_truthy v
  | ArgCallable _ => true
  | ArgKwargs [] => false
  | ArgKwargs (_ :: _) => true
  | ArgConfigure _ _ => true
  end.

(** The dictionary literal of [_adapt_pool_args] before [pool_args] is
    spliced in. *)
Definition default_pool_args (configure : pool_arg) : gmap string pool_arg :=
  <["conninfo" := ArgObject (OStr "")]>
    (<["min_size" := ArgObject (OInt 1)]>
       (<["max_size" := ArgObject (OInt 10)]>
          (<["kwargs" := ArgKwargs [("row_factory", ArgCallable (Callable "dict_row"))]]>
             (<["configure" := configure]>
                (<["open" := ArgObject (OBool false)]> ∅))))).

(** [_adapt_pool_args]: [pool_args.pop("configure", None)], then the literal
    in which the entries of what is left of [pool_args] come last and so
    win. *)
Definition _adapt_pool_args (pool_args : gmap string pool_arg)
    (json_loads : option callable) : gmap string pool_arg :=
  let base_configure := pool_args !! "configure" in
  let pool_args := delete "configure" pool_args in
  pool_args ∪ default_pool_args (ArgConfigure base_configure json_loads).

(** What the [configure] closure calls: the caller's hook, awaited, and
    [psycopg.types.json.set_json_loads]. *)
Class Hooks (World : Type) : Type := {
  call_base_configure : pool_arg -> Connection -> M World unit;
  set_json_loads : callable -> Connection -> M World unit
}.

(** The closure [configure] of [_adapt_pool_args], decorated. *)
Definition configure {World} `{Hooks World} (base_configure : option pool_arg)
    (json_loads : option callable) (connection : Connection) : M World unit :=
  wrap_exceptions
    (let* _ :=
       match base_configure with
       | Some hook =>
           if pool_arg_truthy hook then call_base_configure hook connection else ret tt
       | None => ret tt
       end in
     match json_loads with
     | Some loads => set_json_loads loads connection
     | None => ret tt
     end).

(** *** A driver on which things fail

    The pool cannot be built, opened or closed; connections are handed out,
    named after the time; statements go through on connection 0 only; the
    notification stream breaks; every cursor statement violates a unique
    constraint. *)
Definition faulty_driver : Driver nat := {|
  AsyncConnectionPool := fun _ t =>
    (Raise (psycopg_OperationalError "connection refused"), Datatypes.S t);
  pool_open := fun _ t =>
    (Raise (psycopg_OperationalError "the pool has already been closed"), Datatypes.S t);
  pool_close := fun _ t => (Raise (psycopg_Error "close failed"), Datatypes.S t);
  pool_connection_enter := fun _ t => (Return t, Datatypes.S t);
  pool_connection_exit := fun _ _ => tick tt;
  connection_set_autocommit := fun _ _ => tick tt;
  connection_execute := fun connection _ t =>
    if Nat.eqb connection 0 then (Return tt, Datatypes.S t)
    else (Raise (psycopg_Error "syntax error"), Datatypes.S t);
  connection_closed := fun _ _ => false;
  notifies_next := fun _ t => (Raise (psycopg_Error "protocol error"), Datatypes.S t);
  cursor_execute := fun _ _ _ t =>
    (Raise (psycopg_UniqueViolation "duplicate key value violates unique constraint"
              (Some "procrastinate_jobs_queueing_lock_idx")), Datatypes.S t);
  cursor_fetchone := fun _ => tick None;
  cursor_fetchall := fun _ => tick [];
  listen_queue := "LISTEN {channel_name};"
|}.

(** Hooks that count: the caller's hook fails on connection 1. *)
Definition counting_hooks : Hooks nat := {|
  call_base_configure := fun _ connection t =>
    if Nat.eqb connection 1
    then (Raise (psycopg_Error "SET failed"), Datatypes.S t)
    else (Return tt, Datatypes.S t);
  set_json_loads := fun _ _ t => (Return tt, (t + 10)%nat)
|}.

(** The actions of a record since its last [AEnter]. *)
Fixpoint since_last_enter (acc record : list action) : list action :=
  match record with
  | [] => acc
  | AEnter _ :: rest => since_last_enter [] rest
  | a :: rest => since_last_enter (acc ++ [a])%list rest
  end.

(** * Properties *)

Local Open Scope list_scope.

(** ** Substring test *)

Lemma prefix_append (a b : string) : String.prefix a (a +:+ b) = true.
Proof.
  induction a as [|c a IH]; simpl.
  - now destruct b.
  - destruct (Ascii.ascii_dec c c); [exact IH | congruence].
Qed.

Lemma prefix_inv (a h : string) :
  String.prefix a h = true -> exists b, h = a +:+ b.
Proof.
  revert h; induction a as [|c a IH]; intros h Hp.
  - now exists h.
  - destruct h as [|d h]; simpl in Hp; [discriminate|].
    destruct (Ascii.ascii_dec c d) as [->|]; [|discriminate].
    destruct (IH _ Hp) as [b ->]. now exists b.
Qed.

(** [str_contains] is Python's [in]: the needle occurs somewhere. *)
Lemma str_contains_spec (needle haystack : string) :
  str_contains needle haystack = true
  <-> exists before after, haystack = before +:+ needle +:+ after.
Proof.
  split.
  - induction haystack as [|c h IH]; cbn [str_contains]; intros Hc.
    + apply orb_true_iff in Hc as [Hc|Hc]; [|discriminate].
      destruct (prefix_inv _ _ Hc) as [b Hb]. now exists "", b.
    + apply orb_true_iff in Hc as [Hc|Hc].
      * destruct (prefix_inv _ _ Hc) as [b Hb]. now exists "", b.
      * destruct (IH Hc) as (b & a & ->). now exists (String c b), a.
  - intros (before & after & ->).
    induction before as [|c b IH].
    + change ("" +:+ needle +:+ after) with (needle +:+ after).
      destruct (needle +:+ after) eqn:E; cbn [str_contains];
        rewrite <- E, prefix_append; reflexivity.
    + change (String c b +:+ needle +:+ after) with (String c (b +:+ needle +:+ after)).
      cbn [str_contains]. rewrite IH. apply orb_true_r.
Qed.

(** ** The retry loop *)

Section RetryLoop.
Context {S A : Type}.
Implicit Types (coro : M S A) (s : S).

Lemma stale_attempts_step coro k s :
  stale_attempts coro (Datatypes.S k) s ->
  is_stale_failure (fst (coro s)) = true
  /\ stale_attempts coro k (snd (coro s)).
Proof.
  intros H; split.
  - apply (H O); lia.
  - intros i Hi. apply (H (Datatypes.S i)); lia.
Qed.

(** [k] stale failures use up [k] iterations and nothing else. *)
Lemma retry_loop_stale coro max_tries k :
  forall tries final_exc s,
    stale_attempts coro k s ->
    retry_loop coro max_tries (k + tries) final_exc s
    = retry_loop coro max_tries tries (final_exc_after coro k s final_exc)
        (state_after coro k s).
Proof.
  induction k as [|k IH]; intros tries final_exc s Hs; [reflexivity|].
  apply stale_attempts_step in Hs as [H0 Hk].
  change (Datatypes.S k + tries)%nat with (Datatypes.S (k + tries)).
  cbn [retry_loop state_after].
  destruct (coro s) as [r s1] eqn:E; cbn [fst snd] in *.
  destruct r as [a|exc|]; try discriminate.
  destruct exc; try discriminate.
  cbn [is_stale_failure] in H0. rewrite H0.
  rewrite (IH tries _ s1 Hk).
  f_equal. clear IH Hk.
  destruct k; cbn [final_exc_after state_after]; now rewrite E.
Qed.

(** An attempt that does not fail that way ends the loop with its outcome. *)
Lemma retry_loop_stop coro max_tries tries final_exc s :
  is_stale_failure (fst (coro s)) = false ->
  retry_loop coro max_tries (Datatypes.S tries) final_exc s = coro s.
Proof.
  cbn [retry_loop]. destruct (coro s) as [[a|exc|] s1]; cbn [fst]; try reflexivity.
  destruct exc; try reflexivity.
  cbn [is_stale_failure]. now intros ->.
Qed.

Lemma state_after_succ coro k :
  forall s, state_after coro (Datatypes.S k) s = snd (coro (state_after coro k s)).
Proof.
  induction k as [|k IH]; intros s; [reflexivity|].
  cbn [state_after] in *. apply IH.
Qed.
End RetryLoop.

(** ** The query retrier, counting attempts *)

Section Retrier.
Context {S A : Type}.
Implicit Types (coro : M S A) (s : S).

Lemma counted_fst coro s n : fst (counted coro (s, n)) = fst (coro s).
Proof. unfold counted. now destruct (coro s). Qed.

Lemma counted_snd coro s n :
  snd (counted coro (s, n)) = (snd (coro s), Datatypes.S n).
Proof. unfold counted. now destruct (coro s). Qed.

Lemma counted_state_after coro k :
  forall s n, state_after (counted coro) k (s, n) = (state_after coro k s, (n + k)%nat).
Proof.
  induction k as [|k IH]; intros s n; cbn [state_after].
  - now rewrite Nat.add_0_r.
  - rewrite counted_snd, IH. f_equal. lia.
Qed.

Lemma counted_stale_attempts coro k s n :
  stale_attempts coro k s -> stale_attempts (counted coro) k (s, n).
Proof.
  intros H i Hi. rewrite counted_state_after, counted_fst. now apply H.
Qed.

Lemma counted_eq coro s n :
  counted coro (s, n) = (fst (coro s), (snd (coro s), Datatypes.S n)).
Proof. unfold counted. now destruct (coro s). Qed.

(** After [k] stale failures, with budget left, the next outcome that is
    not a stale failure is the outcome of the whole, one attempt later. *)
Lemma retrier_stops (coro : Psycopg3Connector -> M S A) self s k :
  (k < Z.to_nat (max_tries_of self))%nat ->
  stale_attempts (coro self) k s ->
  is_stale_failure (fst (coro self (state_after (coro self) k s))) = false ->
  wrap_query_exceptions (fun self => counted (coro self)) self (s, O)
  = (fst (coro self (state_after (coro self) k s)),
     (state_after (coro self) (Datatypes.S k) s, Datatypes.S k)).
Proof.
  intros Hk Hs Hstop. unfold wrap_query_exceptions. cbv zeta.
  replace (Z.to_nat (max_tries_of self))
    with (k + Datatypes.S (Z.to_nat (max_tries_of self) - k - 1))%nat by lia.
  rewrite retry_loop_stale by now apply counted_stale_attempts.
  rewrite counted_state_after, retry_loop_stop by now rewrite counted_fst.
  now rewrite counted_eq, state_after_succ.
Qed.

(** C1: when every attempt fails with the stale-connection message and the
    pool has maximum size [max_size >= 0], the wrapped operation is awaited
    exactly [max_size + 1] times and [ConnectorException] is raised, its
    message giving that number of tries, its cause the failure of the last
    attempt. *)
Theorem retrier_exhausted (coro : Psycopg3Connector -> M S A) self pool s :
  _pool self = Some pool ->
  (0 <= max_size pool)%Z ->
  stale_attempts (coro self) (Z.to_nat (max_size pool + 1)) s ->
  exists last,
    fst (coro self (state_after (coro self) (Z.to_nat (max_size pool)) s)) = Raise last
    /\ wrap_query_exceptions (fun self => counted (coro self)) self (s, O)
       = (Raise (ConnectorException
                   (Some ("Could not get a valid connection after "
                          +:+ pretty (max_size pool + 1) +:+ " tries"))
                   (Some last)),
          (state_after (coro self) (Z.to_nat (max_size pool + 1)) s,
           Z.to_nat (max_size pool + 1))).
Proof.
  intros Hpool Hsize Hs.
  unfold wrap_query_exceptions, max_tries_of. cbv zeta. rewrite Hpool.
  replace (Z.to_nat (max_size pool + 1))
    with (Datatypes.S (Z.to_nat (max_size pool))) in * by lia.
  set (n := Z.to_nat (max_size pool)) in *.
  assert (Hlast : is_stale_failure (fst (coro self (state_after (coro self) n s))) = true)
    by (apply Hs; lia).
  destruct (fst (coro self (state_after (coro self) n s))) as [a|last|] eqn:E;
    try discriminate.
  exists last; split; [reflexivity|].
  rewrite <- (Nat.add_0_r (Datatypes.S n)) at 1.
  rewrite retry_loop_stale by now apply counted_stale_attempts.
  cbn [retry_loop final_exc_after]. unfold raise.
  rewrite !counted_state_after, counted_fst, E. reflexivity.
Qed.

(** C3: anything but an operational failure carrying the stale-connection
    message is not retried.  After [k] swallowed stale failures (none, for
    the first attempt) and with an attempt left, such an exception comes
    out as it is, after [k + 1] attempts in all. *)
Theorem retrier_propagates (coro : Psycopg3Connector -> M S A) self s k exc :
  (k < Z.to_nat (max_tries_of self))%nat ->
  stale_attempts (coro self) k s ->
  fst (coro self (state_after (coro self) k s)) = Raise exc ->
  (forall message,
      exc = psycopg_OperationalError message ->
      str_contains server_closed message = false) ->
  wrap_query_exceptions (fun self => counted (coro self)) self (s, O)
  = (Raise exc, (state_after (coro self) (Datatypes.S k) s, Datatypes.S k)).
Proof.
  intros Hk Hs Hexc Hother.
  rewrite (retrier_stops coro self s k Hk Hs); rewrite Hexc; [reflexivity|].
  destruct exc; try reflexivity. cbn [is_stale_failure]. now apply Hother.
Qed.

(** C5: [k <= max_size] stale failures followed by a success give that
    success, and the operation has been awaited [k + 1] times. *)
Theorem retrier_recovers (coro : Psycopg3Connector -> M S A) self pool s k v :
  _pool self = Some pool ->
  (Z.of_nat k <= max_size pool)%Z ->
  stale_attempts (coro self) k s ->
  fst (coro self (state_after (coro self) k s)) = Return v ->
  wrap_query_exceptions (fun self => counted (coro self)) self (s, O)
  = (Return v, (state_after (coro self) (Datatypes.S k) s, Datatypes.S k)).
Proof.
  intros Hpool Hk Hs Hv.
  rewrite (retrier_stops coro self s k); rewrite ?Hv; try reflexivity; [|assumption].
  unfold max_tries_of. rewrite Hpool. lia.
Qed.

(** C10: a connector whose [_pool] is [None] gives a budget of one: the
    operation is awaited once whatever it does, and a stale failure of that
    attempt becomes a [ConnectorException] reporting 1 try. *)
Theorem retrier_without_pool (coro : Psycopg3Connector -> M S A) self s :
  _pool self = None ->
  snd (wrap_query_exceptions (fun self => counted (coro self)) self (s, O))
  = (snd (coro self s), 1%nat)
  /\ (is_stale_failure (fst (coro self s)) = true ->
      exists last,
        fst (coro self s) = Raise last
        /\ fst (wrap_query_exceptions (fun self => counted (coro self)) self (s, O))
           = Raise (ConnectorException
                      (Some "Could not get a valid connection after 1 tries")
                      (Some last)))
  /\ (is_stale_failure (fst (coro self s)) = false ->
      fst (wrap_query_exceptions (fun self => counted (coro self)) self (s, O))
      = fst (coro self s)).
Proof.
  intros Hpool. unfold wrap_query_exceptions, max_tries_of. cbv zeta.
  rewrite Hpool.
  change (Z.to_nat 1) with 1%nat. cbn [retry_loop]. rewrite counted_eq.
  destruct (coro self s) as [[a|exc|] s1]; cbn [fst snd is_stale_failure];
    try (repeat split; intros; (discriminate || reflexivity)).
  destruct exc; cbn [fst snd is_stale_failure];
    try (repeat split; intros; (discriminate || reflexivity)).
  destruct (str_contains server_closed message);
    repeat split; intros; try discriminate; try reflexivity.
  eexists; split; reflexivity.
Qed.
End Retrier.

(** ** The error classifier *)

(** Whatever [wrap_exceptions] raises is not an instance of [psycopg.Error]. *)
Lemma wrap_exceptions_no_psycopg {S A} (coro : M S A) s exc :
  fst (wrap_exceptions coro s) = Raise exc -> is_psycopg_Error exc = false.
Proof.
  unfold wrap_exceptions.
  destruct (coro s) as [[a|e|] s1]; cbn [fst]; try discriminate.
  destruct e; cbn; intros [= <-]; reflexivity.
Qed.

(** What is not an instance of [psycopg.Error] goes through unchanged; so
    does the [ConnectorException] of an exhausted retry loop. *)
Lemma wrap_exceptions_other {S A} (coro : M S A) s exc s' :
  coro s = (Raise exc, s') ->
  is_psycopg_Error exc = false ->
  wrap_exceptions coro s = (Raise exc, s').
Proof.
  intros Hc Hd. unfold wrap_exceptions. rewrite Hc.
  destruct exc; try discriminate; reflexivity.
Qed.

(** The contract of the decorator: a failure that is an instance of
    [psycopg.Error] comes out of
    [wrap_exceptions] as exactly one of two things, neither of them an
    instance of [psycopg.Error]: [UniqueViolation] with the constraint name
    of the driver's diagnostic, when it is a [psycopg.errors.UniqueViolation];
    otherwise [ConnectorException] with the failure as its cause. *)
Theorem classifier_total {S A} (coro : M S A) s exc s' :
  coro s = (Raise exc, s') ->
  is_psycopg_Error exc = true ->
  exists exc',
    wrap_exceptions coro s = (Raise exc', s')
    /\ is_psycopg_Error exc' = false
    /\ ((exists message constraint_name,
           exc = psycopg_UniqueViolation message constraint_name
           /\ exc' = UniqueViolation constraint_name)
        \/ ((forall message constraint_name,
               exc <> psycopg_UniqueViolation message constraint_name)
            /\ exc' = ConnectorException None (Some exc))).
Proof.
  intros Hc Hd. unfold wrap_exceptions. rewrite Hc.
  destruct exc; try discriminate; eexists; (split; [reflexivity|]);
    (split; [reflexivity|]).
  - left. eauto.
  - right. split; [discriminate | reflexivity].
  - right. split; [discriminate | reflexivity].
Qed.

(** *** The retrier and the classifier at concrete operations *)

Lemma stale_until_attempts (k n : nat) :
  (n <= k)%nat -> stale_attempts (stale_until k) n O.
Proof.
  intros Hn i Hi.
  assert (Hst : forall j s, state_after (stale_until k) j s = (j + s)%nat).
  { induction j as [|j IH]; intros s; [reflexivity|].
    cbn [state_after]. rewrite IH. unfold stale_until.
    destruct (Nat.ltb s k); cbn [snd]; lia. }
  rewrite Hst, Nat.add_0_r. unfold stale_until.
  destruct (Nat.ltb_spec i k) as [_|Hge]; [reflexivity | lia].
Defined.

Lemma retrier_exhausted_witness :
  exists last,
    fst (stale_until 100 (state_after (stale_until 100) 3 O)) = Raise last
    /\ wrap_query_exceptions (fun _ => counted (stale_until 100))
         (connector_with (Some (mkPool 0 3))) (O, O)
       = (Raise (ConnectorException
                   (Some "Could not get a valid connection after 4 tries")
                   (Some last)),
          (4%nat, 4%nat)).
Proof.
  apply (retrier_exhausted (fun _ => stale_until 100)
           (connector_with (Some (mkPool 0 3))) (mkPool 0 3) O).
  - reflexivity.
  - cbn. lia.
  - apply stale_until_attempts. vm_compute. lia.
Defined.

Lemma retrier_propagates_witness :
  wrap_query_exceptions
    (fun _ => counted (fun n : nat =>
       (@Raise nat (psycopg_OperationalError "connection refused"), Datatypes.S n)))
    (connector_with (Some (mkPool 0 3))) (O, O)
  = (Raise (psycopg_OperationalError "connection refused"), (1%nat, 1%nat)).
Proof.
  apply (retrier_propagates
           (fun _ n => (@Raise nat (psycopg_OperationalError "connection refused"),
                        Datatypes.S n))
           (connector_with (Some (mkPool 0 3))) O O).
  - vm_compute. lia.
  - intros i Hi. lia.
  - reflexivity.
  - intros message [= <-]. reflexivity.
Defined.

Lemma retrier_recovers_witness :
  wrap_query_exceptions (fun _ => counted (stale_until 2))
    (connector_with (Some (mkPool 0 3))) (O, O)
  = (Return 2%nat, (3%nat, 3%nat)).
Proof.
  apply (retrier_recovers (fun _ => stale_until 2)
           (connector_with (Some (mkPool 0 3))) (mkPool 0 3) O 2).
  - reflexivity.
  - cbn. lia.
  - apply stale_until_attempts. lia.
  - reflexivity.
Defined.

Lemma retrier_without_pool_witness :
  fst (wrap_query_exceptions (fun _ => counted (stale_until 2)) (connector_with None) (O, O))
  = Raise (ConnectorException
             (Some "Could not get a valid connection after 1 tries")
             (Some (psycopg_OperationalError
                      "consuming input failed: server closed the connection unexpectedly")))
  /\ snd (wrap_query_exceptions (fun _ => counted (stale_until 2)) (connector_with None) (O, O))
     = (1%nat, 1%nat).
Proof.
  destruct (retrier_without_pool (fun _ => stale_until 2) (connector_with None) O)
    as (Hstate & Hstale & _); [reflexivity|].
  split; [|exact Hstate].
  destruct (Hstale eq_refl) as (last & Hlast & Hraise).
  rewrite Hraise. injection Hlast as <-. reflexivity.
Defined.

Lemma classifier_total_witness :
  wrap_exceptions
    (fun s : nat => (@Raise unit (psycopg_UniqueViolation
                       "duplicate key value violates unique constraint"
                       (Some "procrastinate_jobs_lock_idx")), s)) O
  = (Raise (UniqueViolation (Some "procrastinate_jobs_lock_idx")), O).
Proof.
  destruct (classifier_total
              (fun s : nat => (@Raise unit (psycopg_UniqueViolation
                                 "duplicate key value violates unique constraint"
                                 (Some "procrastinate_jobs_lock_idx")), s))
              O _ O eq_refl eq_refl)
    as (exc' & Hwrap & _ & [(m & c & Heq & ->)|[Hne _]]).
  - rewrite Hwrap. injection Heq as _ <-. reflexivity.
  - exfalso. exact (Hne _ _ eq_refl).
Defined.

(** ** Pool life cycle, parameters, and the degraded mode of the bridge *)

Section Lifecycle.
Context {World : Type} `{Driver World}.
Implicit Types (self : Psycopg3Connector) (e : Env World).

(** With a pool in place [open_async] changes nothing and calls nothing. *)
Lemma open_async_open self e pool p :
  _pool self = Some p -> open_async pool (self, e) = (Return tt, (self, e)).
Proof. intros Hp. unfold open_async. now rewrite Hp. Qed.

(** Whether it returns or raises, [ensure_open] leaves the connector it
    was given. *)
Lemma ensure_open_self self p st r self' e' :
  ensure_open self p st = (r, (self', e')) -> self' = self.
Proof.
  unfold ensure_open, call. destruct st as [s0 e].
  destruct (pool_open p (world e)). now intros [= _ <- _].
Qed.

(** A call of [open_async] that returns leaves a pool in place. *)
Lemma open_async_returns pool self e u self' e' :
  open_async pool (self, e) = (Return u, (self', e')) ->
  exists p, _pool self' = Some p.
Proof.
  unfold open_async.
  destruct (_pool self) as [p|] eqn:Hp.
  - intros [= _ <- _]. eauto.
  - destruct pool as [p|].
    + intros Ho. apply ensure_open_self in Ho as ->. now exists p.
    + destruct (_create_pool (_pool_args self) e) as [[p|exc|] e1]; try discriminate.
      intros Ho. apply ensure_open_self in Ho as ->. now exists p.
Qed.

(** C7: after a call of [open_async] that returned, a second call, with
    or without a pool argument, returns at once: the connector, and with
    it the pool it holds, the world and the record are what they were. *)
Theorem open_async_idempotent (pool1 pool2 : option Pool) self e self' e' :
  open_async pool1 (self, e) = (Return tt, (self', e')) ->
  open_async pool2 (self', e') = (Return tt, (self', e'))
  /\ _pool (fst (snd (open_async pool2 (self', e')))) = _pool self'.
Proof.
  intros Ho. destruct (open_async_returns _ _ _ _ _ _ Ho) as [p Hp].
  rewrite (open_async_open self' e' pool2 p Hp). split; reflexivity.
Qed.

(** C8: [close_async] does nothing when there is no pool or when the pool
    was supplied from outside: the world, and so the pool, is untouched,
    as it is after any [open_async] that was given a pool.  Otherwise it
    awaits [pool.close()] and, when that returns, leaves [_pool] at [None],
    from where [open_async] builds a pool again. *)
Theorem close_async_spec self e :
  ((_pool self = None \/ _pool_externally_set self = true) ->
   close_async (self, e) = (Return tt, (self, e)))
  /\ (forall p r self' e',
        _pool self = None ->
        open_async (Some p) (self, e) = (r, (self', e')) ->
        _pool self' = Some p
        /\ close_async (self', e') = (Return tt, (self', e')))
  /\ (forall p w',
        _pool self = Some p ->
        _pool_externally_set self = false ->
        pool_close p (world e) = (Return tt, w') ->
        let e' := mkEnv w' (event_is_set e) (log e ++ [APoolClose p true]) in
        close_async (self, e) = (Return tt, (set_pool self None, e'))
        /\ forall q w2 w3,
             AsyncConnectionPool (_pool_args self) w' = (Return q, w2) ->
             pool_open q w2 = (Return tt, w3) ->
             open_async None (set_pool self None, e')
             = (Return tt,
                (set_pool self (Some q),
                 mkEnv w3 (event_is_set e)
                   (log e ++ [APoolClose p true; ACreatePool q; APoolOpen q true])))).
Proof.
  split; [|split].
  - intros Hno. unfold close_async, wrap_exceptions.
    destruct (_pool self) as [p|]; [|reflexivity].
    destruct Hno as [Hno| ->]; [discriminate | reflexivity].
  - intros p r self' e' Hp Ho. unfold open_async in Ho. rewrite Hp in Ho.
    pose proof (ensure_open_self _ _ _ _ _ _ Ho) as ->.
    split; [reflexivity|].
    unfold close_async, wrap_exceptions. reflexivity.
  - intros p w' Hp Hext Hclose e'. split.
    + unfold close_async, wrap_exceptions, call. rewrite Hp, Hext, Hclose.
      reflexivity.
    + intros q w2 w3 Hnew Hopen.
      unfold open_async, _create_pool, wrap_exceptions, ensure_open, call.
      cbn [_pool set_pool _pool_args world e' event_is_set log].
      rewrite Hnew. cbn [world event_is_set log]. rewrite Hopen.
      cbn [is_Return]. rewrite <- !app_assoc. reflexivity.
Qed.

(** C6: with a pool of maximum size 1, [listen_notify] returns after the
    warning and nothing else: the world is as it was (no connection was
    asked for, no statement sent) and so is the flag of the event. *)
Theorem listen_notify_disabled fuel self p channels e :
  _pool self = Some p ->
  max_size p = 1%Z ->
  listen_notify fuel self channels e
  = (Return tt,
     mkEnv (world e) (event_is_set e) (log e ++ [AWarning listen_disabled_message])).
Proof.
  intros Hp Hmax. unfold listen_notify, wrap_exceptions, bind, pool.
  rewrite Hp. unfold ret. rewrite Hmax. reflexivity.
Qed.

(** C9: [_wrap_json] keeps the keys; a value that is a [dict] becomes a
    [Jsonb] of that value with the connector's [json_dumps]; any other
    value is left as it is. *)
Theorem _wrap_json_spec self (arguments : gmap string pyobj) :
  dom (_wrap_json self arguments) = dom arguments
  /\ (forall key value,
        arguments !! key = Some value ->
        isinstance_dict value = true ->
        _wrap_json self arguments !! key = Some (OJsonb value (json_dumps self)))
  /\ (forall key value,
        arguments !! key = Some value ->
        isinstance_dict value = false ->
        _wrap_json self arguments !! key = Some value).
Proof.
  unfold _wrap_json. split; [apply dom_fmap_L|].
  split; intros key value Hk Hd; rewrite lookup_fmap, Hk; cbn; now rewrite Hd.
Qed.
(** [open_async] is not decorated: a failure of [pool.open()] is raised as it
    is, and the pool stays in place. *)
Lemma open_async_open_fails self e p exc w' :
  _pool self = None ->
  pool_open p (world e) = (Raise exc, w') ->
  open_async (Some p) (self, e)
  = (Raise exc,
     (set_pool (set_pool_externally_set self true) (Some p),
      mkEnv w' (event_is_set e) (log e ++ [APoolOpen p false]))).
Proof.
  intros Hp Hopen. unfold open_async, ensure_open, call.
  rewrite Hp, Hopen. reflexivity.
Qed.

(** The parameters [execute_query_async] hands to the cursor are those
    [_wrap_json] made: on an open connector, when the statement goes through
    at the first attempt, the record is one block with one execution. *)
Lemma execute_query_async_sends self p query arguments e connection w1 w2 w3 :
  _pool self = Some p ->
  (0 <= max_size p)%Z ->
  pool_connection_enter p (world e) = (Return connection, w1) ->
  cursor_execute connection query (_wrap_json self arguments) w1 = (Return tt, w2) ->
  pool_connection_exit p connection w2 = (Return tt, w3) ->
  execute_query_async query arguments self e
  = (Return tt,
     mkEnv w3 (event_is_set e)
       (log e ++ [AEnter connection;
                  ACursorExecute connection query (_wrap_json self arguments) true;
                  AExit connection])).
Proof.
  intros Hp Hsize Henter Hexec Hexit.
  unfold execute_query_async, wrap_exceptions, wrap_query_exceptions, max_tries_of.
  cbv zeta. rewrite Hp.
  replace (Z.to_nat (max_size p + 1)) with (Datatypes.S (Z.to_nat (max_size p))) by lia.
  cbn [retry_loop]. unfold bind, pool, ret, with_connection, call.
  rewrite Hp, Henter. cbn [world event_is_set log]. rewrite Hexec.
  cbn [world event_is_set log is_Return]. rewrite Hexit.
  rewrite <- !app_assoc. reflexivity.
Qed.
End Lifecycle.


(** ** The notification bridge *)

Lemma wrap_exceptions_inv {S A} (coro : M S A) s r s' :
  wrap_exceptions coro s = (r, s') ->
  exists r0, coro s = (r0, s') /\ is_Return r = is_Return r0.
Proof.
  unfold wrap_exceptions.
  destruct (coro s) as [[a|exc|] s1].
  - intros [= <- <-]. eauto.
  - destruct exc; cbn; intros [= <- <-]; eauto.
  - intros [= <- <-]. eauto.
Qed.

Lemma subscribed_all (channels : list string) : subscribed channels channels = true.
Proof.
  unfold subscribed. apply List.forallb_forall. intros x Hx.
  apply List.existsb_exists. exists x. split; [exact Hx | apply String.eqb_refl].
Qed.

Lemma subscribed_In (channels subs : list string) :
  subscribed channels subs = true ->
  forall channel_name, In channel_name channels -> In channel_name subs.
Proof.
  unfold subscribed. intros Hs ch Hch.
  rewrite List.forallb_forall in Hs. specialize (Hs ch Hch).
  apply List.existsb_exists in Hs as (x & Hx & Heq).
  apply String.eqb_eq in Heq. now subst x.
Qed.

(** ** Reading the monitor *)

Section Monitor.
Variable listen_template : string.
Variable channels : list string.

Lemma subscribed_block_snoc chans connection before a :
  subscribed_block listen_template chans connection before ->
  (forall c, a <> AEnter c /\ a <> AExit c) ->
  subscribed_block listen_template chans connection (before ++ [a]).
Proof.
  intros (earlier & block & -> & Hblock & Hsubs) Ha.
  exists earlier, (block ++ [a]). split; [|split].
  - now rewrite <- app_assoc.
  - intros c. rewrite !in_app_iff. cbn [In].
    destruct (Hblock c) as [H1 H2], (Ha c) as [H3 H4]. split; intros [?|[?|[]]]; auto.
  - intros ch Hch. apply in_app_iff. left. now apply Hsubs.
Qed.

Lemma monitor_step_inv before st a st' :
  monitor_inv listen_template before st ->
  monitor_step listen_template channels st a = Some st' ->
  monitor_inv listen_template (before ++ [a]) st'.
Proof.
  intros Hinv Hstep.
  assert (Hkeep : (forall c, a <> AEnter c /\ a <> AExit c) ->
                  monitor_inv listen_template (before ++ [a]) st).
  { intros Ha. destruct st as [[connection subs]|]; [|exact I].
    now apply subscribed_block_snoc. }
  destruct a; cbn [monitor_step] in Hstep;
    try (injection Hstep as <-; apply Hkeep; split; discriminate).
  - (* AEnter *)
    injection Hstep as <-. exists before, []. split; [reflexivity|].
    split; [intros c; split; intros [] | intros ch []].
  - (* AExit *)
    injection Hstep as <-. exact I.
  - (* AExecute *)
    destruct query as [template ch|text]; destruct ok;
      try (injection Hstep as <-; apply Hkeep; split; discriminate).
    destruct st as [[current subs]|];
      try (injection Hstep as <-; exact I).
    destruct (Nat.eqb connection current && String.eqb template listen_template) eqn:E;
      try (injection Hstep as <-; apply Hkeep; split; discriminate).
    injection Hstep as <-.
    apply andb_true_iff in E as [Ec Et].
    apply Nat.eqb_eq in Ec. apply String.eqb_eq in Et. subst connection template.
    destruct Hinv as (earlier & block & -> & Hblock & Hsubs).
    exists earlier, (block ++ [AExecute current (SQL_format_Identifier listen_template ch) true]).
    split; [|split].
    + now rewrite <- app_assoc.
    + intros c. rewrite !in_app_iff. cbn [In].
      destruct (Hblock c) as [H1 H2]. split; intros [?|[?|[]]]; auto; discriminate.
    + intros ch' Hch'. apply in_app_iff in Hch' as [Hch'|[<-|[]]]; apply in_app_iff.
      * left. now apply Hsubs.
      * right. now left.
  - (* AEventSet *)
    destruct st as [[connection subs]|]; [|discriminate].
    destruct (subscribed channels subs); [|discriminate].
    injection Hstep as <-. apply Hkeep. split; discriminate.
  - (* AEventClear *)
    discriminate.
Qed.

Lemma monitor_run_reading :
  forall rest before st st',
    monitor_inv listen_template before st ->
    monitor_run listen_template channels st rest = Some st' ->
    ~ In AEventClear rest
    /\ forall b a,
         rest = b ++ AEventSet :: a ->
         exists connection,
           subscribed_block listen_template channels connection (before ++ b).
Proof.
  induction rest as [|x rest IH]; intros before st st' Hinv Hrun.
  - split; [intros [] | intros [|] ? [=]].
  - cbn [monitor_run] in Hrun.
    destruct (monitor_step listen_template channels st x) as [st1|] eqn:Hstep;
      [|discriminate].
    pose proof (monitor_step_inv before st x st1 Hinv Hstep) as Hinv1.
    destruct (IH _ _ _ Hinv1 Hrun) as [Hclear Hsets].
    split.
    + intros [->|Hin]; [discriminate | auto].
    + intros b a Hsplit. destruct b as [|y b]; cbn [app] in Hsplit.
      * injection Hsplit as -> ->. cbn [monitor_step] in Hstep.
        destruct st as [[connection subs]|]; [|discriminate].
        destruct (subscribed channels subs) eqn:Hsub; [|discriminate].
        exists connection. rewrite app_nil_r.
        destruct Hinv as (earlier & block & -> & Hblock & Hsubs).
        exists earlier, block. split; [reflexivity|]. split; [exact Hblock|].
        intros ch Hch. apply Hsubs. eapply subscribed_In; eassumption.
      * injection Hsplit as -> ->.
        destruct (Hsets b a eq_refl) as [connection Hc].
        exists connection. now rewrite <- app_assoc in Hc.
Qed.

(** A record the monitor accepts never clears the event and sets it only
    with every channel subscribed on the connection in use. *)
Lemma monitor_accepts_reading record :
  monitor_accepts listen_template channels record = true ->
  ~ In AEventClear record
  /\ set_after_subscriptions listen_template channels record.
Proof.
  unfold monitor_accepts.
  destruct (monitor_run listen_template channels None record) as [st'|] eqn:Hrun;
    [intros _ | discriminate].
  exact (monitor_run_reading record [] None st' I Hrun).
Qed.
End Monitor.

Section Bridge.
Context {World : Type} `{Driver World}.
Variable channels : list string.
Implicit Types (e : Env World) (st : monitor_state) (record : list action).

Lemma monitor_run_app st record1 record2 :
  monitor_run listen_queue channels st (record1 ++ record2)
  = match monitor_run listen_queue channels st record1 with
    | Some st' => monitor_run listen_queue channels st' record2
    | None => None
    end.
Proof.
  revert st; induction record1 as [|a record1 IH]; intros st; [reflexivity|].
  cbn [app monitor_run].
  destruct (monitor_step listen_queue channels st a); [apply IH | reflexivity].
Qed.

Local Abbreviation advances := (advances listen_queue channels).

Lemma advances_refl st e : advances st e e st.
Proof. split; [tauto|]. exists []. now rewrite app_nil_r. Qed.

Lemma advances_trans st1 st2 st3 e1 e2 e3 :
  advances st1 e1 e2 st2 -> advances st2 e2 e3 st3 -> advances st1 e1 e3 st3.
Proof.
  intros (Hf1 & d1 & Hl1 & Hr1) (Hf2 & d2 & Hl2 & Hr2).
  split; [tauto|]. exists (d1 ++ d2). split.
  - now rewrite Hl2, Hl1, app_assoc.
  - now rewrite monitor_run_app, Hr1.
Qed.

Lemma advances_world st e w : advances st e (mkEnv w (event_is_set e) (log e)) st.
Proof. split; [tauto|]. exists []. cbn. now rewrite app_nil_r. Qed.

Lemma advances_step st st' e a b w :
  monitor_step listen_queue channels st a = Some st' ->
  (event_is_set e = true -> b = true) ->
  advances st e (mkEnv w b (log e ++ [a])) st'.
Proof.
  intros Hstep Hb. split; [exact Hb|]. exists [a]. split; [reflexivity|].
  cbn [monitor_run]. now rewrite Hstep.
Qed.

(** The subscribe statements: each one that returns adds its channel. *)
Lemma for_channels_advances connection :
  forall chs subs e r e',
    for_channel_names connection chs e = (r, e') ->
    exists subs',
      advances (Some (connection, subs)) e e' (Some (connection, subs'))
      /\ (is_Return r = true -> subs' = (subs ++ chs)%list).
Proof.
  induction chs as [|ch chs IH]; intros subs e r e' Hrun.
  - injection Hrun as <- <-. exists subs. split; [apply advances_refl|].
    now rewrite app_nil_r.
  - cbn [for_channel_names] in Hrun. unfold bind, call in Hrun.
    destruct (connection_execute connection (listen_query ch) (world e))
      as [[[]|exc|] w1] eqn:E; cbn [is_Return] in Hrun.
    + apply (IH (subs ++ [ch])%list) in Hrun as (subs' & Hadv & Hret).
      exists subs'. split.
      * eapply advances_trans; [|exact Hadv].
        apply advances_step; [|tauto].
        unfold listen_query. cbn [monitor_step].
        now rewrite Nat.eqb_refl, String.eqb_refl.
      * intros Hr. rewrite (Hret Hr), <- app_assoc. reflexivity.
    + injection Hrun as <- <-. exists subs. split; [|discriminate].
      apply advances_step; [reflexivity | tauto].
    + injection Hrun as <- <-. exists subs. split; [|discriminate].
      apply advances_step; [reflexivity | tauto].
Qed.

(** Once every channel is subscribed, consuming notifications only sets
    the event. *)
Lemma async_for_notifies_advances connection subs :
  subscribed channels subs = true ->
  forall fuel e r e',
    async_for_notifies fuel connection e = (r, e') ->
    advances (Some (connection, subs)) e e' (Some (connection, subs)).
Proof.
  intros Hsub. induction fuel as [|fuel IH]; intros e r e' Hrun.
  - injection Hrun as <- <-. apply advances_refl.
  - cbn [async_for_notifies] in Hrun.
    destruct (notifies_next connection (world e)) as [[[ch|]|exc|] w].
    + unfold bind, event_set in Hrun. cbn [world event_is_set log] in Hrun.
      apply IH in Hrun. eapply advances_trans; [|exact Hrun].
      apply advances_step; [|tauto]. cbn [monitor_step]. now rewrite Hsub.
    + injection Hrun as <- <-. apply advances_world.
    + injection Hrun as <- <-. apply advances_world.
    + injection Hrun as <- <-. apply advances_world.
Qed.

Lemma _loop_notify_while_advances connection subs :
  subscribed channels subs = true ->
  forall fuel e r e',
    _loop_notify_while fuel connection e = (r, e') ->
    advances (Some (connection, subs)) e e' (Some (connection, subs)).
Proof.
  intros Hsub. induction fuel as [|fuel IH]; intros e r e' Hrun.
  - injection Hrun as <- <-. apply advances_refl.
  - cbn [_loop_notify_while] in Hrun.
    destruct (connection_closed connection (world e)).
    { injection Hrun as <- <-. apply advances_refl. }
    destruct (async_for_notifies fuel connection e) as [r1 e1] eqn:E.
    pose proof (async_for_notifies_advances connection subs Hsub _ _ _ _ E) as Hadv.
    destruct r1 as [u|exc|].
    + eapply advances_trans; [exact Hadv | eapply IH; exact Hrun].
    + destruct exc;
        try (injection Hrun as <- <-; exact Hadv).
      eapply advances_trans; [exact Hadv | eapply IH; exact Hrun].
    + injection Hrun as <- <-. exact Hadv.
Qed.

Lemma _loop_notify_advances connection subs fuel e r e' :
  subscribed channels subs = true ->
  _loop_notify fuel connection e = (r, e') ->
  advances (Some (connection, subs)) e e' (Some (connection, subs)).
Proof.
  intros Hsub Hrun. apply wrap_exceptions_inv in Hrun as (r0 & Hrun & _).
  eapply _loop_notify_while_advances; eassumption.
Qed.

Lemma after_for_idem it : after_for (after_for it) = after_for it.
Proof. now destruct it. Qed.

(** One [async with] block of [listen_notify], at a pass where the iterable
    gives every channel the monitor asks for: the monitor ends outside any
    block unless the block is still running. *)
Lemma listen_block_advances p fuel (it : Iterable) e r e' :
  subscribed channels (yields it) = true ->
  with_connection p (fun connection =>
    let* _ := call (connection_set_autocommit connection true)
                (ASetAutocommit connection true) in
    let* _ := for_channels connection it in
    let* _ := event_set in
    _loop_notify fuel connection) e = (r, e') ->
  exists st', advances None e e' st' /\ (is_Return r = true -> st' = None).
Proof.
  intros Hcover. unfold with_connection.
  destruct (pool_connection_enter p (world e)) as [[connection|exc|] w].
  2,3: intros [= <- <-]; exists None; split; [apply advances_world | reflexivity].
  set (e0 := mkEnv w (event_is_set e) (log e ++ [AEnter connection])).
  assert (Henter : advances None e e0 (Some (connection, [])))
    by (apply advances_step; [reflexivity | tauto]).
  (* the body of the block *)
  assert (Hbody : forall r2 e2,
    (let* _ := call (connection_set_autocommit connection true)
                 (ASetAutocommit connection true) in
     let* _ := for_channels connection it in
     let* _ := event_set in
     _loop_notify fuel connection) e0 = (r2, e2) ->
    exists subs, advances (Some (connection, [])) e0 e2 (Some (connection, subs))).
  { intros r2 e2. unfold bind at 1. unfold call.
    destruct (connection_set_autocommit connection true (world e0)) as [r1 w1].
    set (e1 := mkEnv w1 (event_is_set e0) _).
    assert (H1 : advances (Some (connection, [])) e0 e1 (Some (connection, [])))
      by (apply advances_step; [reflexivity | tauto]).
    destruct r1 as [u|exc|].
    2,3: intros [= <- <-]; eauto.
    unfold bind at 1. unfold for_channels.
    destruct (for_channel_names connection (yields it) e1) as [r3 e3] eqn:E3.
    destruct (for_channels_advances connection (yields it) [] e1 r3 e3 E3)
      as (subs & H3 & Hsubs).
    destruct r3 as [u3|exc|].
    2,3: intros [= <- <-]; exists subs; eapply advances_trans; eassumption.
    specialize (Hsubs eq_refl). cbn [app] in Hsubs. subst subs.
    unfold bind, event_set. intros Hloop.
    apply _loop_notify_advances with (subs := yields it) in Hloop;
      [|exact Hcover].
    exists (yields it).
    eapply advances_trans; [exact H1|].
    eapply advances_trans; [exact H3|].
    eapply advances_trans; [|exact Hloop].
    apply advances_step; [|tauto].
    cbn [monitor_step]. now rewrite Hcover. }
  fold e0.
  match goal with
  | |- context [match ?b e0 with _ => _ end] => destruct (b e0) as [r2 e2] eqn:E2
  end.
  destruct (Hbody r2 e2 eq_refl) as (subs & Hadv).
  assert (Hexit : forall w3,
    advances None e (mkEnv w3 (event_is_set e2) (log e2 ++ [AExit connection])) None).
  { intros w3. eapply advances_trans; [exact Henter|].
    eapply advances_trans; [exact Hadv|].
    apply advances_step; [reflexivity | tauto]. }
  destruct r2 as [u|exc|].
  - destruct (pool_connection_exit p connection (world e2)) as [[u'|exc'|] w3];
      intros [= <- <-]; exists None; split; auto.
  - destruct (pool_connection_exit p connection (world e2)) as [[u'|exc'|] w3];
      intros [= <- <-]; exists None; split; auto.
  - intros [= <- <-]. exists (Some (connection, subs)). split; [|discriminate].
    eapply advances_trans; eassumption.
Qed.

(** The loop, for an iterable that gives every channel the monitor asks for
    at this pass and at every later one. *)
Lemma listen_notify_while_advances self :
  forall fuel (it : Iterable) e r e',
    subscribed channels (yields it) = true ->
    subscribed channels (yields (after_for it)) = true ->
    listen_notify_while fuel self it e = (r, e') ->
    exists st', advances None e e' st'.
Proof.
  induction fuel as [|fuel IH]; intros it e r e' Hnow Hlater Hrun.
  - injection Hrun as <- <-. exists None. apply advances_refl.
  - cbn [listen_notify_while] in Hrun. unfold bind at 1 in Hrun. unfold pool in Hrun.
    destruct (_pool self) as [p|].
    2: { injection Hrun as <- <-. exists None. apply advances_refl. }
    unfold ret in Hrun. unfold bind at 1 in Hrun.
    match type of Hrun with
    | context [match ?b e with _ => _ end] => destruct (b e) as [r1 e1] eqn:E1
    end.
    apply listen_block_advances in E1 as (st1 & Hadv & Hret); [|exact Hnow].
    destruct r1 as [u|exc|].
    + rewrite (Hret eq_refl) in Hadv.
      apply IH in Hrun as (st' & Hrest);
        [|exact Hlater | now rewrite after_for_idem].
      exists st'. eapply advances_trans; eassumption.
    + injection Hrun as <- <-. eauto.
    + injection Hrun as <- <-. eauto.
Qed.

Lemma listen_notify_advances fuel self (it : Iterable) e r e' :
  subscribed channels (yields it) = true ->
  subscribed channels (yields (after_for it)) = true ->
  listen_notify fuel self it e = (r, e') ->
  exists st', advances None e e' st'.
Proof.
  intros Hnow Hlater Hrun. apply wrap_exceptions_inv in Hrun as (r0 & Hrun & _).
  unfold bind, pool in Hrun.
  destruct (_pool self) as [p|] eqn:Hp.
  2: { injection Hrun as <- <-. exists None. apply advances_refl. }
  unfold ret in Hrun.
  destruct (max_size p =? 1)%Z.
  - injection Hrun as <- <-. exists None.
    apply advances_step; [reflexivity | tauto].
  - exact (listen_notify_while_advances self fuel it e r0 e' Hnow Hlater Hrun).
Qed.

Lemma listen_notify_accepted fuel self (w : World) (b : bool) :
  monitor_accepts listen_queue channels
    (log (snd (listen_notify fuel self (Sequence channels) (mkEnv w b [])))) = true.
Proof.
  destruct (listen_notify fuel self (Sequence channels) (mkEnv w b [])) as [r e'] eqn:E.
  apply listen_notify_advances in E as (st' & _ & delta & Hlog & Hrun);
    try apply subscribed_all.
  cbn [snd]. rewrite Hlog. cbn [log app]. unfold monitor_accepts.
  now rewrite Hrun.
Qed.

(** X27: when [channels] is a sequence, whatever the driver does and however
    long the bridge runs, in the record of a run of [listen_notify] the event
    is never cleared, and every [event.set()] comes inside an [async with]
    block, after the subscribe statement of each channel of [channels] has
    returned on the connection of that block.  An event that was set when
    the run began is still set. *)
Theorem listen_notify_signal_sequence fuel self (w : World) (b : bool) :
  ~ In AEventClear
      (log (snd (listen_notify fuel self (Sequence channels) (mkEnv w b []))))
  /\ set_after_subscriptions listen_queue channels
       (log (snd (listen_notify fuel self (Sequence channels) (mkEnv w b []))))
  /\ event_is_set
       (snd (listen_notify fuel self (Sequence channels) (mkEnv w true []))) = true.
Proof.
  split; [|split].
  - apply (monitor_accepts_reading listen_queue channels), listen_notify_accepted.
  - apply (monitor_accepts_reading listen_queue channels), listen_notify_accepted.
  - destruct (listen_notify fuel self (Sequence channels) (mkEnv w true []))
      as [r e'] eqn:E.
    apply listen_notify_advances in E as (st' & Hflag & _);
      try apply subscribed_all.
    now apply Hflag.
Qed.
End Bridge.

(** *** The connector on the clock driver *)

Lemma open_async_idempotent_witness :
  open_async (Some (mkPool 7 5))
    (connector_with (Some (mkPool 0 10)),
     mkEnv 2%nat false [ACreatePool (mkPool 0 10); APoolOpen (mkPool 0 10) true])
  = (Return tt,
     (connector_with (Some (mkPool 0 10)),
      mkEnv 2%nat false [ACreatePool (mkPool 0 10); APoolOpen (mkPool 0 10) true])).
Proof.
  apply (open_async_idempotent None (Some (mkPool 7 5))
           (connector_with None) (mkEnv O false [])).
  reflexivity.
Defined.

Lemma close_async_spec_witness :
  close_async (mkConnector None None (Some (mkPool 7 5)) [] true,
               mkEnv 1%nat false [APoolOpen (mkPool 7 5) true])
  = (Return tt,
     (mkConnector None None (Some (mkPool 7 5)) [] true,
      mkEnv 1%nat false [APoolOpen (mkPool 7 5) true]))
  /\ close_async (connector_with (Some (mkPool 0 10)), mkEnv 2%nat false [])
     = (Return tt,
        (connector_with None, mkEnv 3%nat false [APoolClose (mkPool 0 10) true]))
  /\ open_async None
       (connector_with None, mkEnv 3%nat false [APoolClose (mkPool 0 10) true])
     = (Return tt,
        (connector_with (Some (mkPool 3 10)),
         mkEnv 5%nat false
           [APoolClose (mkPool 0 10) true; ACreatePool (mkPool 3 10);
            APoolOpen (mkPool 3 10) true])).
Proof.
  split; [|split].
  - destruct (close_async_spec (connector_with None) (mkEnv O false []))
      as (_ & Hext & _).
    exact (proj2 (Hext (mkPool 7 5) _ _ _ eq_refl eq_refl)).
  - destruct (close_async_spec (connector_with (Some (mkPool 0 10)))
                (mkEnv 2%nat false [])) as (_ & _ & Hown).
    exact (proj1 (Hown (mkPool 0 10) 3%nat eq_refl eq_refl eq_refl)).
  - destruct (close_async_spec (connector_with (Some (mkPool 0 10)))
                (mkEnv 2%nat false [])) as (_ & _ & Hown).
    exact (proj2 (Hown (mkPool 0 10) 3%nat eq_refl eq_refl eq_refl)
             (mkPool 3 10) 4%nat 5%nat eq_refl eq_refl).
Defined.

Lemma listen_notify_disabled_witness :
  listen_notify 12 (connector_with (Some (mkPool 0 1)))
    (Sequence ["procrastinate_any_queue"]) (mkEnv O false [])
  = (Return tt,
     mkEnv O false
       [AWarning "Listen/Notify capabilities disabled because maximum pool sizeis set to 1"]).
Proof.
  apply (listen_notify_disabled 12 (connector_with (Some (mkPool 0 1))) (mkPool 0 1)
           (Sequence ["procrastinate_any_queue"]) (mkEnv O false [])).
  - reflexivity.
  - reflexivity.
Defined.

Lemma _wrap_json_spec_witness :
  _wrap_json (mkConnector (Some (Callable "json.dumps")) None None [] false)
    (<["args" := ODict [("a", OInt 1)]]> (<["queue" := OStr "default"]> ∅))
  !! "args" = Some (OJsonb (ODict [("a", OInt 1)]) (Some (Callable "json.dumps")))
  /\ _wrap_json (mkConnector (Some (Callable "json.dumps")) None None [] false)
       (<["args" := ODict [("a", OInt 1)]]> (<["queue" := OStr "default"]> ∅))
     !! "queue" = Some (OStr "default").
Proof.
  destruct (_wrap_json_spec
              (mkConnector (Some (Callable "json.dumps")) None None [] false)
              (<["args" := ODict [("a", OInt 1)]]> (<["queue" := OStr "default"]> ∅)))
    as (_ & Hdict & Hother).
  split.
  - apply Hdict; reflexivity.
  - apply Hother; reflexivity.
Defined.

Lemma listen_notify_signal_sequence_witness :
  exists connection,
    subscribed_block "LISTEN {channel_name};" ["a"; "b"] connection
      [AEnter 0%nat; ASetAutocommit 0%nat true true;
       AExecute 0%nat (SQL_format_Identifier "LISTEN {channel_name};" "a") true;
       AExecute 0%nat (SQL_format_Identifier "LISTEN {channel_name};" "b") true;
       AEventSet; AEventSet; AExit 0%nat; AEnter 7%nat; ASetAutocommit 7%nat true true;
       AExecute 7%nat (SQL_format_Identifier "LISTEN {channel_name};" "a") true;
       AExecute 7%nat (SQL_format_Identifier "LISTEN {channel_name};" "b") true].
Proof.
  destruct (listen_notify_signal_sequence ["a"; "b"] 12
              (connector_with (Some (mkPool 0 10))) O false) as (_ & Hset & _).
  eapply Hset. vm_compute. reflexivity.
Defined.

(** * Further properties of the connector *)

(** ** The retrier on any operation *)

Section RetrierRuns.
Context {S A : Type}.
Implicit Types (coro : M S A) (s : S).

Lemma stale_attempts_cons coro k s :
  is_stale_failure (fst (coro s)) = true ->
  stale_attempts coro k (snd (coro s)) ->
  stale_attempts coro (Datatypes.S k) s.
Proof.
  intros H0 Hk [|i] Hi; cbn [state_after]; [exact H0|].
  apply Hk. lia.
Qed.

(** Every run of the loop: [n] attempts, of which either all were stale
    failures and used up the budget, or the last one was not a stale failure
    and is the outcome. *)
Lemma retry_loop_counted_run coro max_tries :
  forall tries final_exc s c r s' c',
    retry_loop (counted coro) max_tries tries final_exc (s, c) = (r, (s', c')) ->
    exists n,
      c' = (c + n)%nat /\ (n <= tries)%nat /\ s' = state_after coro n s
      /\ ((n = tries /\ stale_attempts coro n s
           /\ r = Raise (ConnectorException (Some (could_not_get_message max_tries))
                           (final_exc_after coro n s final_exc)))
          \/ ((1 <= n)%nat /\ stale_attempts coro (n - 1) s
              /\ is_stale_failure (fst (coro (state_after coro (n - 1) s))) = false
              /\ r = fst (coro (state_after coro (n - 1) s)))).
Proof.
  induction tries as [|tries IH]; intros final_exc s c r s' c' Hrun.
  - injection Hrun as <- <- <-. exists O.
    split; [lia|]. split; [lia|]. split; [reflexivity|].
    left. split; [reflexivity|]. split; [intros i Hi; lia | reflexivity].
  - cbn [retry_loop] in Hrun. rewrite counted_eq in Hrun.
    destruct (is_stale_failure (fst (coro s))) eqn:Hstale.
    + assert (H0 := Hstale).
      destruct (coro s) as [[a|exc|] s1] eqn:E; cbn [fst snd] in *; try discriminate.
      destruct exc; try discriminate. cbn [is_stale_failure] in Hstale.
      rewrite Hstale in Hrun.
      apply IH in Hrun as (n & -> & Hn & -> & Hcase).
      assert (Hs1 : snd (coro s) = s1) by now rewrite E.
      assert (Hf : fst (coro s) = Raise (psycopg_OperationalError message))
        by now rewrite E.
      exists (Datatypes.S n).
      split; [lia|]. split; [lia|].
      split; [cbn [state_after]; now rewrite Hs1|].
      destruct Hcase as [(-> & Hall & ->)|(Hn1 & Hbefore & Hlast & ->)].
      * left. split; [reflexivity|]. split.
        { apply stale_attempts_cons; [now rewrite Hf | now rewrite Hs1]. }
        f_equal. f_equal.
        destruct tries; cbn [final_exc_after state_after]; rewrite ?Hs1;
          [now rewrite Hf | reflexivity].
      * right. destruct n as [|m]; [lia|].
        replace (Datatypes.S (Datatypes.S m) - 1)%nat with (Datatypes.S m) by lia.
        replace (Datatypes.S m - 1)%nat with m in * by lia.
        cbn [state_after]. rewrite Hs1.
        split; [lia|]. split; [|split; [assumption | reflexivity]].
        apply stale_attempts_cons; [now rewrite Hf | now rewrite Hs1].
    + assert (Hr : retry_loop (counted coro) max_tries (Datatypes.S tries) final_exc (s, c)
                   = counted coro (s, c))
        by (apply retry_loop_stop; now rewrite counted_fst).
      cbn [retry_loop] in Hr. rewrite counted_eq in Hr. rewrite Hr in Hrun.
      injection Hrun as <- <- <-. exists 1%nat.
      split; [lia|]. split; [lia|]. split; [reflexivity|].
      right. cbn [state_after Nat.sub].
      split; [lia|]. split; [intros i Hi; lia|]. split; [assumption | reflexivity].
Qed.
End RetrierRuns.

Lemma retry_loop_never_stale {S A} (coro : M S A) max_tries :
  forall tries final_exc s,
    is_stale_failure (fst (retry_loop coro max_tries tries final_exc s)) = false.
Proof.
  induction tries as [|tries IH]; intros final_exc s; [reflexivity|].
  cbn [retry_loop]. destruct (coro s) as [[a|exc|] s1]; try reflexivity.
  destruct exc; try reflexivity.
  destruct (str_contains server_closed message) eqn:E; [apply IH|].
  cbn [fst is_stale_failure]. exact E.
Qed.

(** [wrap_exceptions] changes the exception of an outcome, by [classify], and
    nothing else. *)
Lemma wrap_exceptions_classify {S A} (coro : M S A) s :
  wrap_exceptions coro s
  = (match fst (coro s) with
     | Raise exc => Raise (classify exc)
     | r => r
     end, snd (coro s)).
Proof.
  unfold wrap_exceptions. destruct (coro s) as [[a|exc|] s1]; try reflexivity.
  destruct exc; reflexivity.
Qed.

Lemma classify_not_psycopg exc : is_psycopg_Error (classify exc) = false.
Proof. destruct exc; reflexivity. Qed.

Lemma classify_other exc : is_psycopg_Error exc = false -> classify exc = exc.
Proof. destruct exc; try discriminate; reflexivity. Qed.

Section RetrierExtras.
Context {S A : Type}.

(** When every attempt of the budget is a stale failure, the loop ends in its
    own exception, whatever the budget. *)
Lemma retrier_all_stale (coro : Psycopg3Connector -> M S A) self s :
  stale_attempts (coro self) (Z.to_nat (max_tries_of self)) s ->
  wrap_query_exceptions (fun self => counted (coro self)) self (s, O)
  = (Raise (ConnectorException (Some (could_not_get_message (max_tries_of self)))
              (final_exc_after (coro self) (Z.to_nat (max_tries_of self)) s None)),
     (state_after (coro self) (Z.to_nat (max_tries_of self)) s,
      Z.to_nat (max_tries_of self))).
Proof.
  intros Hs. unfold wrap_query_exceptions. cbv zeta.
  rewrite <- (Nat.add_0_r (Z.to_nat (max_tries_of self))) at 1.
  rewrite retry_loop_stale by now apply counted_stale_attempts.
  cbn [retry_loop]. unfold raise. rewrite counted_state_after. cbn [Nat.add].
  f_equal. f_equal. f_equal.
  destruct (Z.to_nat (max_tries_of self)); cbn [final_exc_after]; [reflexivity|].
  now rewrite counted_state_after, counted_fst.
Qed.

(** X1: whatever the operation does, it is awaited at most [max_tries] times,
    and at least once when [max_tries] is positive. *)
Theorem retrier_attempts_bounded (coro : Psycopg3Connector -> M S A) self s :
  (snd (snd (wrap_query_exceptions (fun self => counted (coro self)) self (s, O)))
   <= Z.to_nat (max_tries_of self))%nat
  /\ ((1 <= max_tries_of self)%Z ->
      (1 <= snd (snd (wrap_query_exceptions (fun self => counted (coro self)) self (s, O))))%nat).
Proof.
  destruct (wrap_query_exceptions (fun self => counted (coro self)) self (s, O))
    as [r [s' c']] eqn:E.
  unfold wrap_query_exceptions in E. cbv zeta in E.
  apply retry_loop_counted_run in E as (n & -> & Hn & -> & Hcase).
  cbn [snd]. split; [lia|]. intros Hpos.
  destruct Hcase as [(-> & _)|(H1 & _)]; lia.
Qed.

(** X2: a value the retrier returns is the value the last attempt returned;
    every attempt before it was a stale failure, and the state is the one
    those attempts left. *)
Theorem retrier_return_sound (coro : Psycopg3Connector -> M S A) self s v s' n :
  wrap_query_exceptions (fun self => counted (coro self)) self (s, O)
  = (Return v, (s', n)) ->
  (1 <= n <= Z.to_nat (max_tries_of self))%nat
  /\ s' = state_after (coro self) n s
  /\ stale_attempts (coro self) (n - 1) s
  /\ fst (coro self (state_after (coro self) (n - 1) s)) = Return v.
Proof.
  intros E. unfold wrap_query_exceptions in E. cbv zeta in E.
  apply retry_loop_counted_run in E as (m & -> & Hm & -> & Hcase).
  cbn [Nat.add].
  destruct Hcase as [(_ & _ & [=])|(H1 & Hbefore & _ & Hlast)].
  split; [lia|]. split; [reflexivity|]. split; [assumption | now symmetry].
Qed.

(** X3: no stale failure comes out of the retrier: the outcome is never an
    operational failure whose message has the stale-connection phrase. *)
Theorem retrier_never_stale (coro : Psycopg3Connector -> M S A) self s :
  is_stale_failure (fst (wrap_query_exceptions coro self s)) = false.
Proof. unfold wrap_query_exceptions. apply retry_loop_never_stale. Qed.

(** X4: decorating twice is decorating once: what [wrap_exceptions] raised is
    not classified again. *)
Theorem wrap_exceptions_idempotent (coro : M S A) s :
  wrap_exceptions (wrap_exceptions coro) s = wrap_exceptions coro s.
Proof.
  rewrite (wrap_exceptions_classify (wrap_exceptions coro)).
  rewrite (wrap_exceptions_classify coro). cbn [fst snd].
  destruct (fst (coro s)) as [a|exc|]; try reflexivity.
  now rewrite (classify_other _ (classify_not_psycopg exc)).
Qed.

(** X5: under both decorators, classification outermost, an exhausted budget
    reaches the caller as the retrier raised it: the [ConnectorException]
    with the number of tries and the last failure as cause, not wrapped
    again. *)
Theorem decorated_exhausted (coro : Psycopg3Connector -> M S A) self pool s :
  _pool self = Some pool ->
  (0 <= max_size pool)%Z ->
  stale_attempts (coro self) (Z.to_nat (max_size pool + 1)) s ->
  exists last,
    fst (coro self (state_after (coro self) (Z.to_nat (max_size pool)) s)) = Raise last
    /\ wrap_exceptions
         (wrap_query_exceptions (fun self => counted (coro self)) self) (s, O)
       = (Raise (ConnectorException
                   (Some ("Could not get a valid connection after "
                          +:+ pretty (max_size pool + 1) +:+ " tries"))
                   (Some last)),
          (state_after (coro self) (Z.to_nat (max_size pool + 1)) s,
           Z.to_nat (max_size pool + 1))).
Proof.
  intros Hpool Hsize Hs.
  assert (Hmt : max_tries_of self = (max_size pool + 1)%Z)
    by (unfold max_tries_of; now rewrite Hpool).
  rewrite <- Hmt in Hs.
  rewrite wrap_exceptions_classify, (retrier_all_stale coro self s Hs), Hmt.
  cbn [fst snd classify].
  replace (Z.to_nat (max_size pool + 1))
    with (Datatypes.S (Z.to_nat (max_size pool))) in * by lia.
  cbn [final_exc_after].
  rewrite Hmt in Hs.
  replace (Z.to_nat (max_size pool + 1))
    with (Datatypes.S (Z.to_nat (max_size pool))) in Hs by lia.
  assert (Hlast : is_stale_failure
                    (fst (coro self (state_after (coro self)
                                       (Z.to_nat (max_size pool)) s))) = true)
    by (apply Hs; lia).
  destruct (fst (coro self (state_after (coro self) (Z.to_nat (max_size pool)) s)))
    as [a|last|]; try discriminate.
  exists last. split; reflexivity.
Qed.

(** X6: under both decorators, a driver failure that is not a stale failure
    is not retried and reaches the caller classified: after [k] swallowed
    stale failures it comes out as [classify] makes it, [k + 1] attempts in
    all. *)
Theorem decorated_classifies (coro : Psycopg3Connector -> M S A) self s k exc :
  (k < Z.to_nat (max_tries_of self))%nat ->
  stale_attempts (coro self) k s ->
  fst (coro self (state_after (coro self) k s)) = Raise exc ->
  (forall message,
      exc = psycopg_OperationalError message ->
      str_contains server_closed message = false) ->
  wrap_exceptions
    (wrap_query_exceptions (fun self => counted (coro self)) self) (s, O)
  = (Raise (classify exc), (state_after (coro self) (Datatypes.S k) s, Datatypes.S k))
  /\ is_psycopg_Error (classify exc) = false.
Proof.
  intros Hk Hs Hexc Hother. split; [|apply classify_not_psycopg].
  rewrite wrap_exceptions_classify, (retrier_stops coro self s k Hk Hs).
  - cbn [fst snd]. now rewrite Hexc.
  - rewrite Hexc. destruct exc; try reflexivity.
    cbn [is_stale_failure]. now apply Hother.
Qed.
End RetrierExtras.

(** ** More on the life cycle of the pool *)

Section LifecycleExtras.
Context {World : Type} `{Driver World}.
Implicit Types (self : Psycopg3Connector) (e : Env World).

(** X7: when the pool constructor raises, [open_async] raises that exception
    classified, [pool.open()] is not awaited, and the connector is left as it
    was, without a pool. *)
Theorem open_async_create_fails self e exc w' :
  _pool self = None ->
  AsyncConnectionPool (_pool_args self) (world e) = (Raise exc, w') ->
  open_async None (self, e)
  = (Raise (classify exc), (self, mkEnv w' (event_is_set e) (log e)))
  /\ is_psycopg_Error (classify exc) = false.
Proof.
  intros Hp Hnew. split; [|apply classify_not_psycopg].
  unfold open_async, _create_pool. rewrite Hp, wrap_exceptions_classify, Hnew.
  reflexivity.
Qed.

(** X8: when [pool.open()] raises on a pool given by the caller, the
    exception comes out as the driver raised it, the pool stays in place as
    an external one, and any later [open_async] returns at once without
    awaiting [pool.open()] again. *)
Theorem open_async_failed_open_sticks self e p exc w' pool2 :
  _pool self = None ->
  pool_open p (world e) = (Raise exc, w') ->
  open_async (Some p) (self, e)
  = (Raise exc,
     (set_pool (set_pool_externally_set self true) (Some p),
      mkEnv w' (event_is_set e) (log e ++ [APoolOpen p false])))
  /\ open_async pool2
       (set_pool (set_pool_externally_set self true) (Some p),
        mkEnv w' (event_is_set e) (log e ++ [APoolOpen p false]))
     = (Return tt,
        (set_pool (set_pool_externally_set self true) (Some p),
         mkEnv w' (event_is_set e) (log e ++ [APoolOpen p false]))).
Proof.
  intros Hp Hopen. split.
  - unfold open_async, ensure_open, call. rewrite Hp, Hopen. reflexivity.
  - reflexivity.
Qed.

(** X9: when [pool.close()] raises, [close_async] raises that exception
    classified and keeps the pool: [_pool] is not cleared. *)
Theorem close_async_close_fails self e p exc w' :
  _pool self = Some p ->
  _pool_externally_set self = false ->
  pool_close p (world e) = (Raise exc, w') ->
  close_async (self, e)
  = (Raise (classify exc),
     (self, mkEnv w' (event_is_set e) (log e ++ [APoolClose p false]))).
Proof.
  intros Hp Hext Hclose. unfold close_async.
  rewrite wrap_exceptions_classify. unfold call.
  rewrite Hp, Hext, Hclose. reflexivity.
Qed.

(** X10: after a [close_async] that returned, a second one does nothing. *)
Theorem close_async_idempotent (st st' : Psycopg3Connector * Env World) :
  close_async st = (Return tt, st') ->
  close_async st' = (Return tt, st').
Proof.
  destruct st as [self e]. unfold close_async at 1.
  rewrite wrap_exceptions_classify. unfold call.
  destruct (_pool self) as [p|] eqn:Hp.
  - destruct (_pool_externally_set self) eqn:Hext.
    + intros [= <-]. unfold close_async, wrap_exceptions. now rewrite Hp, Hext.
    + destruct (pool_close p (world e)) as [[u|exc|] w']; cbn [fst snd];
        try discriminate.
      intros [= <-]. reflexivity.
  - intros [= <-]. unfold close_async, wrap_exceptions. now rewrite Hp.
Qed.

(** With an external pool in place neither method does anything. *)
Lemma lifecycle_step_external c self e p :
  _pool self = Some p ->
  _pool_externally_set self = true ->
  lifecycle_step c (self, e) = (Return tt, (self, e)).
Proof.
  intros Hp Hext. destruct c as [pool|]; cbn [lifecycle_step].
  - now apply open_async_open with (p := p).
  - unfold close_async, wrap_exceptions. now rewrite Hp, Hext.
Qed.

(** X11: once [open_async] has been given a pool by the caller on a
    connector that had none, whatever came of that call, no sequence of
    [open_async] and [close_async] calls changes the connector, the world or
    the record: the pool is never closed, never replaced, never opened
    again. *)
Theorem external_pool_untouched self e p r st' calls :
  _pool self = None ->
  open_async (Some p) (self, e) = (r, st') ->
  run_calls calls st' = st'
  /\ _pool (fst st') = Some p.
Proof.
  intros Hp Ho. unfold open_async in Ho. rewrite Hp in Ho.
  destruct st' as [self' e'].
  pose proof (ensure_open_self _ _ _ _ _ _ Ho) as ->.
  split; [|reflexivity].
  induction calls as [|c calls IH]; [reflexivity|].
  cbn [run_calls]. rewrite (lifecycle_step_external c _ e' p); [exact IH | reflexivity..].
Qed.

Lemma ownership_recorded_step calls c self e r st' :
  ownership_recorded calls (self, e) ->
  lifecycle_step c (self, e) = (r, st') ->
  ownership_recorded (calls ++ [c]) st'.
Proof.
  unfold ownership_recorded. cbn [fst snd]. intros Hinv Hstep.
  destruct c as [pool|]; cbn [lifecycle_step] in Hstep.
  - unfold open_async in Hstep.
    destruct (_pool self) as [q|] eqn:Hq.
    + injection Hstep as <- <-. cbn [fst snd]. rewrite Hq.
      destruct (_pool_externally_set self); [|exact Hinv].
      apply in_app_iff. now left.
    + destruct pool as [p|].
      * destruct st' as [self' e'].
        pose proof (ensure_open_self _ _ _ _ _ _ Hstep) as ->.
        cbn. apply in_app_iff. right. now left.
      * unfold _create_pool in Hstep. rewrite wrap_exceptions_classify in Hstep.
        destruct (AsyncConnectionPool (_pool_args self) (world e)) as [[q|exc|] w1];
          cbn [fst snd] in Hstep.
        -- unfold ensure_open, call in Hstep. cbn [world event_is_set log] in Hstep.
           destruct (pool_open q w1) as [r1 w2]. injection Hstep as <- <-.
           cbn. rewrite Hinv. rewrite !in_app_iff. left. right. now left.
        -- injection Hstep as <- <-. cbn. now rewrite Hq.
        -- injection Hstep as <- <-. cbn. now rewrite Hq.
  - unfold close_async in Hstep. rewrite wrap_exceptions_classify in Hstep.
    destruct (_pool self) as [q|] eqn:Hq.
    + destruct (_pool_externally_set self) eqn:Hext.
      * injection Hstep as <- <-. cbn [fst snd]. rewrite Hq, Hext.
        apply in_app_iff. now left.
      * unfold call in Hstep.
        destruct (pool_close q (world e)) as [[u|exc|] w1]; cbn [fst snd] in Hstep;
          injection Hstep as <- <-; cbn; rewrite ?Hq, ?Hext; try reflexivity;
          apply in_app_iff; now left.
    + injection Hstep as <- <-. cbn [fst snd]. now rewrite Hq.
Qed.

Lemma ownership_recorded_run :
  forall calls done (st : Psycopg3Connector * Env World),
    ownership_recorded done st ->
    exists done', ownership_recorded (done ++ done') (run_calls calls st)
                  /\ exists rest, calls = done' ++ rest.
Proof.
  induction calls as [|c calls IH]; intros done st Hinv.
  - exists []. rewrite app_nil_r. split; [exact Hinv | now exists []].
  - cbn [run_calls]. destruct st as [self e].
    destruct (lifecycle_step c (self, e)) as [r st'] eqn:Hstep.
    pose proof (ownership_recorded_step done c self e r st' Hinv Hstep) as Hinv'.
    destruct r as [u|exc|].
    + destruct (IH _ _ Hinv') as (done' & Hrun & rest & ->).
      exists (c :: done'). rewrite <- app_assoc in Hrun. split; [exact Hrun|].
      now exists rest.
    + destruct (IH _ _ Hinv') as (done' & Hrun & rest & ->).
      exists (c :: done'). rewrite <- app_assoc in Hrun. split; [exact Hrun|].
      now exists rest.
    + exists [c]. split; [exact Hinv' | now exists calls].
Qed.

(** X12: starting without a pool and with the flag unset, as [__init__]
    leaves the connector, any sequence of [open_async] and [close_async]
    calls keeps the flag truthful: it is set only while a pool given by a
    caller is in place, and a pool in place with the flag unset was built by
    the connector. *)
Theorem ownership_flag_truthful calls self e :
  _pool self = None ->
  _pool_externally_set self = false ->
  ownership_recorded calls (run_calls calls (self, e)).
Proof.
  intros Hp Hext.
  destruct (ownership_recorded_run calls [] (self, e)) as (done' & Hrun & rest & ->).
  { unfold ownership_recorded. cbn [fst]. now rewrite Hp. }
  cbn [app] in Hrun. revert Hrun. unfold ownership_recorded.
  destruct (_pool (fst (run_calls (done' ++ rest) (self, e)))) as [q|]; [|tauto].
  destruct (_pool_externally_set (fst (run_calls (done' ++ rest) (self, e)))); [|tauto].
  intros Hin. apply in_app_iff. now left.
Qed.
End LifecycleExtras.

(** ** Connections are borrowed one at a time and given back *)

Lemma scoped_app cur record1 record2 :
  scoped cur (record1 ++ record2)
  = match scoped cur record1 with
    | Some cur' => scoped cur' record2
    | None => None
    end.
Proof.
  revert cur; induction record1 as [|a record1 IH]; intros cur; [reflexivity|].
  destruct a; cbn [app scoped]; try apply IH.
  - destruct cur; [reflexivity | apply IH].
  - destruct (on_held cur connection); [apply IH | reflexivity].
  - destruct (on_held cur connection); [apply IH | reflexivity].
  - destruct (on_held cur connection); [apply IH | reflexivity].
  - destruct (on_held cur connection); [apply IH | reflexivity].
Qed.

Lemma entered_app record1 record2 :
  entered (record1 ++ record2) = (entered record1 + entered record2)%nat.
Proof. unfold entered. now rewrite List.filter_app, length_app. Qed.

Lemma wrap_exceptions_pending {S A} (coro : M S A) s :
  is_Pending (fst (wrap_exceptions coro s)) = is_Pending (fst (coro s))
  /\ snd (wrap_exceptions coro s) = snd (coro s).
Proof.
  rewrite wrap_exceptions_classify. cbn [fst snd].
  now destruct (fst (coro s)).
Qed.

Section QueryMethods.
Context {World : Type} `{Driver World}.
Implicit Types (self : Psycopg3Connector) (e : Env World).

Lemma query_advances_refl query params n e : query_advances query params n e e None.
Proof.
  exists []. rewrite app_nil_r. repeat split; [constructor | cbn; lia].
Qed.

Lemma query_advances_trans query params n1 n2 e1 e2 e3 cur :
  query_advances query params n1 e1 e2 None ->
  query_advances query params n2 e2 e3 cur ->
  query_advances query params (n1 + n2) e1 e3 cur.
Proof.
  intros (d1 & Hl1 & Hs1 & Hq1 & Hn1) (d2 & Hl2 & Hs2 & Hq2 & Hn2).
  exists (d1 ++ d2). split; [now rewrite Hl2, Hl1, app_assoc|].
  split; [now rewrite scoped_app, Hs1|].
  split; [now apply Forall_app|].
  rewrite entered_app. lia.
Qed.

(** One attempt of a query method: the block around the statement, and what
    [rest] does after the statement without sending anything. *)
Lemma query_attempt_advances {B} self query arguments
    (rest : Connection -> unit -> M (Env World) B) :
  (forall connection u e r e', rest connection u e = (r, e') -> log e' = log e) ->
  forall e r e',
    (let* p := pool self in
     with_connection p (fun connection =>
       let params := _wrap_json self arguments in
       let* u := call (cursor_execute connection query params)
                   (ACursorExecute connection query params) in
       rest connection u)) e = (r, e') ->
    exists cur',
      query_advances query (_wrap_json self arguments) 1 e e' cur'
      /\ (is_Pending r = false -> cur' = None).
Proof.
  intros Hrest e r e'. unfold bind at 1. unfold pool.
  destruct (_pool self) as [p|].
  2: { intros [= <- <-]. exists None. split; [apply query_advances_refl | reflexivity]. }
  unfold ret, with_connection.
  destruct (pool_connection_enter p (world e)) as [[connection|exc|] w].
  2,3: intros [= <- <-]; exists None; split; [|reflexivity];
       exists []; cbn [log]; rewrite app_nil_r;
       repeat split; [constructor | cbn; lia].
  cbv zeta. unfold bind, call. cbn [world event_is_set log].
  destruct (cursor_execute connection query (_wrap_json self arguments) w) as [r1 w1].
  set (a1 := ACursorExecute connection query (_wrap_json self arguments) (is_Return r1)).
  assert (Hopen : scoped None [AEnter connection; a1] = Some (Some connection))
    by (cbn; now rewrite Nat.eqb_refl).
  assert (Hclosed : scoped None [AEnter connection; a1; AExit connection] = Some None)
    by (cbn; now rewrite Nat.eqb_refl).
  assert (Hq2 : Forall (query_action query (_wrap_json self arguments))
                  [AEnter connection; a1])
    by (repeat constructor).
  assert (Hq3 : Forall (query_action query (_wrap_json self arguments))
                  [AEnter connection; a1; AExit connection])
    by (repeat constructor).
  assert (Hdone : forall e2 (r' : outcome B) w3,
            log e2 = (log e ++ [AEnter connection]) ++ [a1] ->
            exists cur',
              query_advances query (_wrap_json self arguments) 1 e
                (mkEnv w3 (event_is_set e2) (log e2 ++ [AExit connection])) cur'
              /\ (is_Pending r' = false -> cur' = None)).
  { intros e2 r' w3 Hl. exists None. split; [|reflexivity].
    exists [AEnter connection; a1; AExit connection]. cbn [log].
    rewrite Hl, <- !app_assoc. repeat split; [exact Hclosed | exact Hq3 | cbn; lia]. }
  assert (Hpend : forall e2,
            log e2 = (log e ++ [AEnter connection]) ++ [a1] ->
            exists cur',
              query_advances query (_wrap_json self arguments) 1 e e2 cur'
              /\ (is_Pending (@Pending B) = false -> cur' = None)).
  { intros e2 Hl. exists (Some connection). split; [|discriminate].
    exists [AEnter connection; a1]. rewrite Hl, <- !app_assoc.
    repeat split; [exact Hopen | exact Hq2 | cbn; lia]. }
  destruct r1 as [u|exc|].
  - destruct (rest connection u
                (mkEnv w1 (event_is_set e) ((log e ++ [AEnter connection]) ++ [a1])))
      as [r2 e2] eqn:E2.
    apply Hrest in E2. cbn [log] in E2.
    destruct r2 as [b|exc|].
    + destruct (pool_connection_exit p connection (world e2)) as [[u'|exc'|] w3];
        intros [= <- <-]; now apply Hdone.
    + destruct (pool_connection_exit p connection (world e2)) as [[u'|exc'|] w3];
        intros [= <- <-]; now apply Hdone.
    + intros [= <- <-]. now apply Hpend.
  - cbn [world event_is_set log].
    destruct (pool_connection_exit p connection w1) as [[u'|exc'|] w3];
      intros [= <- <-];
      apply (Hdone (mkEnv w1 (event_is_set e) ((log e ++ [AEnter connection]) ++ [a1])));
      reflexivity.
  - intros [= <- <-]. now apply Hpend.
Qed.

(** The retry loop over attempts that go on as a query method may. *)
Lemma retry_loop_query_advances {B} query params (coro : M (Env World) B) max_tries :
  (forall e r e',
      coro e = (r, e') ->
      exists cur', query_advances query params 1 e e' cur'
                   /\ (is_Pending r = false -> cur' = None)) ->
  forall tries final_exc e r e',
    retry_loop coro max_tries tries final_exc e = (r, e') ->
    exists cur', query_advances query params tries e e' cur'
                 /\ (is_Pending r = false -> cur' = None).
Proof.
  intros Hcoro. induction tries as [|tries IH]; intros final_exc e r e' Hrun.
  - injection Hrun as <- <-. exists None. split; [apply query_advances_refl | reflexivity].
  - cbn [retry_loop] in Hrun.
    destruct (coro e) as [r1 e1] eqn:E1.
    destruct (Hcoro _ _ _ E1) as (cur1 & Hadv1 & Hcur1).
    assert (Hstop : exists cur',
              query_advances query params (Datatypes.S tries) e e1 cur'
              /\ (is_Pending r1 = false -> cur' = None)).
    { exists cur1. split; [|exact Hcur1].
      destruct Hadv1 as (d & Hl & Hs & Hq & Hn).
      exists d. repeat split; try assumption. lia. }
    destruct r1 as [b|exc|]; try (injection Hrun as <- <-; exact Hstop).
    destruct exc; try (injection Hrun as <- <-; exact Hstop).
    destruct (str_contains server_closed message);
      [|injection Hrun as <- <-; exact Hstop].
    rewrite (Hcur1 eq_refl) in Hadv1.
    apply IH in Hrun as (cur' & Hadv & Hcur).
    exists cur'. split; [|exact Hcur].
    change (Datatypes.S tries) with (1 + tries)%nat.
    eapply query_advances_trans; eassumption.
Qed.

(** Both decorators around such attempts. *)
Lemma decorated_query_advances {B} self query arguments
    (coro : Psycopg3Connector -> M (Env World) B) :
  (forall e r e',
      coro self e = (r, e') ->
      exists cur', query_advances query (_wrap_json self arguments) 1 e e' cur'
                   /\ (is_Pending r = false -> cur' = None)) ->
  forall e r e',
    wrap_exceptions (wrap_query_exceptions coro self) e = (r, e') ->
    exists cur',
      query_advances query (_wrap_json self arguments)
        (Z.to_nat (max_tries_of self)) e e' cur'
      /\ (is_Pending r = false -> cur' = None).
Proof.
  intros Hcoro e r e' Hrun.
  destruct (wrap_exceptions_pending (wrap_query_exceptions coro self) e) as [Hp Hs].
  rewrite Hrun in Hp, Hs. cbn [fst snd] in Hp, Hs.
  destruct (wrap_query_exceptions coro self e) as [r0 e0] eqn:E0.
  cbn [fst snd] in Hp, Hs. subst e0. rewrite Hp.
  unfold wrap_query_exceptions in E0. cbv zeta in E0.
  eapply retry_loop_query_advances; eassumption.
Qed.

Lemma with_connection_ext {B} p (body1 body2 : Connection -> M (Env World) B) e :
  (forall connection e1, body1 connection e1 = body2 connection e1) ->
  with_connection p body1 e = with_connection p body2 e.
Proof.
  intros Hext. unfold with_connection.
  destruct (pool_connection_enter p (world e)) as [[connection|exc|] w]; try reflexivity.
  now rewrite Hext.
Qed.

Lemma bind_ret {S B} (m : M S B) s : (let* u := m in ret u) s = m s.
Proof. unfold bind, ret. now destruct (m s) as [[b|exc|] s1]. Qed.

(** X13: a call of any of the three query methods borrows connections one
    at a time, sends nothing but [query] with the parameters [_wrap_json]
    made, on the connection it holds, enters at most [max_tries] blocks, and
    holds no connection once it has returned or raised. *)
Theorem query_methods_scoped query arguments self e :
  (exists cur',
      query_advances query (_wrap_json self arguments) (Z.to_nat (max_tries_of self))
        e (snd (execute_query_async query arguments self e)) cur'
      /\ (is_Pending (fst (execute_query_async query arguments self e)) = false ->
          cur' = None))
  /\ (exists cur',
        query_advances query (_wrap_json self arguments) (Z.to_nat (max_tries_of self))
          e (snd (execute_query_one_async query arguments self e)) cur'
        /\ (is_Pending (fst (execute_query_one_async query arguments self e)) = false ->
            cur' = None))
  /\ (exists cur',
        query_advances query (_wrap_json self arguments) (Z.to_nat (max_tries_of self))
          e (snd (execute_query_all_async query arguments self e)) cur'
        /\ (is_Pending (fst (execute_query_all_async query arguments self e)) = false ->
            cur' = None)).
Proof.
  split; [|split].
  - destruct (execute_query_async query arguments self e) as [r e'] eqn:E.
    unfold execute_query_async in E.
    eapply decorated_query_advances; [|exact E].
    intros e0 r0 e0' Hrun.
    apply (query_attempt_advances self query arguments (fun _ u => ret u)).
    + intros connection u e1 r1 e1' [= _ <-]. reflexivity.
    + rewrite <- Hrun. unfold bind at 1 3. destruct (pool self e0) as [[p|exc|] e2];
        try reflexivity.
      apply with_connection_ext. intros connection e1. cbv zeta. apply bind_ret.
  - destruct (execute_query_one_async query arguments self e) as [r e'] eqn:E.
    unfold execute_query_one_async in E.
    eapply decorated_query_advances; [|exact E].
    intros e0 r0 e0' Hrun.
    apply (query_attempt_advances self query arguments
             (fun connection _ e =>
                let (r, w) := cursor_fetchone connection (world e) in
                (r, mkEnv w (event_is_set e) (log e)))).
    + intros connection u e1 r1 e1'.
      destruct (cursor_fetchone connection (world e1)). now intros [= _ <-].
    + exact Hrun.
  - destruct (execute_query_all_async query arguments self e) as [r e'] eqn:E.
    unfold execute_query_all_async in E.
    eapply decorated_query_advances; [|exact E].
    intros e0 r0 e0' Hrun.
    apply (query_attempt_advances self query arguments
             (fun connection _ e =>
                let (r, w) := cursor_fetchall connection (world e) in
                (r, mkEnv w (event_is_set e) (log e)))).
    + intros connection u e1 r1 e1'.
      destruct (cursor_fetchall connection (world e1)). now intros [= _ <-].
    + exact Hrun.
Qed.

(** X14: on a connector that is not open, each query method raises
    [AppNotOpen] at its first attempt, neither retried nor classified, and
    touches nothing. *)
Theorem query_methods_not_open query arguments self e :
  _pool self = None ->
  execute_query_async query arguments self e = (Raise AppNotOpen, e)
  /\ execute_query_one_async query arguments self e = (Raise AppNotOpen, e)
  /\ execute_query_all_async query arguments self e = (Raise AppNotOpen, e).
Proof.
  intros Hp.
  unfold execute_query_async, execute_query_one_async, execute_query_all_async,
    wrap_exceptions, wrap_query_exceptions, max_tries_of.
  cbv zeta. rewrite Hp. change (Z.to_nat 1) with 1%nat. cbn [retry_loop].
  unfold bind, pool, raise. rewrite Hp. repeat split.
Qed.

(** X15: when the statement goes through at the first attempt,
    [execute_query_one_async] returns what [cursor.fetchone()] gave, [None]
    for no row included, in one block on one connection. *)
Theorem execute_query_one_async_returns self p query arguments e connection
    w1 w2 w3 w4 row :
  _pool self = Some p ->
  (0 <= max_size p)%Z ->
  pool_connection_enter p (world e) = (Return connection, w1) ->
  cursor_execute connection query (_wrap_json self arguments) w1 = (Return tt, w2) ->
  cursor_fetchone connection w2 = (Return row, w3) ->
  pool_connection_exit p connection w3 = (Return tt, w4) ->
  execute_query_one_async query arguments self e
  = (Return row,
     mkEnv w4 (event_is_set e)
       (log e ++ [AEnter connection;
                  ACursorExecute connection query (_wrap_json self arguments) true;
                  AExit connection])).
Proof.
  intros Hp Hsize Henter Hexec Hfetch Hexit.
  unfold execute_query_one_async, wrap_exceptions, wrap_query_exceptions, max_tries_of.
  cbv zeta. rewrite Hp.
  replace (Z.to_nat (max_size p + 1)) with (Datatypes.S (Z.to_nat (max_size p))) by lia.
  cbn [retry_loop]. unfold bind, pool, ret, with_connection, call.
  rewrite Hp, Henter. cbn [world event_is_set log]. rewrite Hexec.
  cbn [world event_is_set log is_Return]. rewrite Hfetch.
  cbn [world event_is_set log]. rewrite Hexit.
  rewrite <- !app_assoc. reflexivity.
Qed.

(** X16: when the statement violates a unique constraint,
    [execute_query_async] raises [UniqueViolation] with the constraint name
    of the driver's diagnostic after that one attempt, and the connection
    has been given back. *)
Theorem execute_query_async_unique_violation self p query arguments e connection
    w1 w2 w3 message constraint_name :
  _pool self = Some p ->
  (0 <= max_size p)%Z ->
  pool_connection_enter p (world e) = (Return connection, w1) ->
  cursor_execute connection query (_wrap_json self arguments) w1
  = (Raise (psycopg_UniqueViolation message constraint_name), w2) ->
  pool_connection_exit p connection w2 = (Return tt, w3) ->
  execute_query_async query arguments self e
  = (Raise (UniqueViolation constraint_name),
     mkEnv w3 (event_is_set e)
       (log e ++ [AEnter connection;
                  ACursorExecute connection query (_wrap_json self arguments) false;
                  AExit connection])).
Proof.
  intros Hp Hsize Henter Hexec Hexit.
  unfold execute_query_async, wrap_exceptions, wrap_query_exceptions, max_tries_of.
  cbv zeta. rewrite Hp.
  replace (Z.to_nat (max_size p + 1)) with (Datatypes.S (Z.to_nat (max_size p))) by lia.
  cbn [retry_loop]. unfold bind, pool, ret, with_connection, call.
  rewrite Hp, Henter. cbn [world event_is_set log]. rewrite Hexec.
  cbn [world event_is_set log is_Return]. rewrite Hexit.
  rewrite <- !app_assoc. reflexivity.
Qed.
End QueryMethods.

(** ** More on the notification bridge *)

Lemma scoped_sets cur n : scoped cur (repeat AEventSet n) = Some cur.
Proof. induction n as [|n IH]; [reflexivity | exact IH]. Qed.

Section BridgeExtras.
Context {World : Type} `{Driver World}.
Implicit Types (self : Psycopg3Connector) (e : Env World).

(** From [e] to [e'] the event was set [n] times and nothing else was done
    that the record shows. *)
Lemma async_for_notifies_sets connection :
  forall fuel e r e',
    async_for_notifies fuel connection e = (r, e') ->
    exists n,
      log e' = log e ++ repeat AEventSet n
      /\ event_is_set e' = (event_is_set e || negb (Nat.eqb n 0)).
Proof.
  induction fuel as [|fuel IH]; intros e r e' Hrun.
  - injection Hrun as <- <-. exists O. cbn. now rewrite app_nil_r, orb_false_r.
  - cbn [async_for_notifies] in Hrun.
    destruct (notifies_next connection (world e)) as [[[ch|]|exc|] w].
    + unfold bind, event_set in Hrun. cbn [world event_is_set log] in Hrun.
      apply IH in Hrun as (n & Hl & Hf). cbn [log event_is_set] in Hl, Hf.
      exists (Datatypes.S n). cbn [repeat]. rewrite Hl, Hf, <- app_assoc.
      split; [reflexivity|]. cbn. now rewrite orb_true_r.
    + injection Hrun as <- <-. exists O. cbn. now rewrite app_nil_r, orb_false_r.
    + injection Hrun as <- <-. exists O. cbn. now rewrite app_nil_r, orb_false_r.
    + injection Hrun as <- <-. exists O. cbn. now rewrite app_nil_r, orb_false_r.
Qed.

Lemma sets_trans e1 e2 e3 n1 n2 :
  log e2 = log e1 ++ repeat AEventSet n1 ->
  event_is_set e2 = (event_is_set e1 || negb (Nat.eqb n1 0)) ->
  log e3 = log e2 ++ repeat AEventSet n2 ->
  event_is_set e3 = (event_is_set e2 || negb (Nat.eqb n2 0)) ->
  log e3 = log e1 ++ repeat AEventSet (n1 + n2)
  /\ event_is_set e3 = (event_is_set e1 || negb (Nat.eqb (n1 + n2) 0)).
Proof.
  intros Hl1 Hf1 Hl2 Hf2. split.
  - now rewrite Hl2, Hl1, repeat_app, app_assoc.
  - rewrite Hf2, Hf1. destruct n1, n2; cbn; now rewrite ?orb_false_r, ?orb_true_r.
Qed.

Lemma _loop_notify_while_sets connection :
  forall fuel e r e',
    _loop_notify_while fuel connection e = (r, e') ->
    exists n,
      log e' = log e ++ repeat AEventSet n
      /\ event_is_set e' = (event_is_set e || negb (Nat.eqb n 0)).
Proof.
  induction fuel as [|fuel IH]; intros e r e' Hrun.
  - injection Hrun as <- <-. exists O. cbn. now rewrite app_nil_r, orb_false_r.
  - cbn [_loop_notify_while] in Hrun.
    destruct (connection_closed connection (world e)).
    { injection Hrun as <- <-. exists O. cbn. now rewrite app_nil_r, orb_false_r. }
    destruct (async_for_notifies fuel connection e) as [r1 e1] eqn:E.
    apply async_for_notifies_sets in E as (n1 & Hl1 & Hf1).
    assert (Hgo : forall r e',
              _loop_notify_while fuel connection e1 = (r, e') ->
              exists n,
                log e' = log e ++ repeat AEventSet n
                /\ event_is_set e' = (event_is_set e || negb (Nat.eqb n 0))).
    { intros r2 e2 Hrec. apply IH in Hrec as (n2 & Hl2 & Hf2).
      exists (n1 + n2)%nat. eapply sets_trans; eassumption. }
    destruct r1 as [u|exc|].
    + eapply Hgo. exact Hrun.
    + destruct exc; try (injection Hrun as <- <-; eauto).
      eapply Hgo. exact Hrun.
    + injection Hrun as <- <-. eauto.
Qed.

(** X17: [_loop_notify] does nothing but set the event: it sends no
    statement, takes and gives back no connection, and leaves the event as
    it found it when it set it no time. *)
Theorem _loop_notify_only_sets fuel connection e :
  exists n,
    log (snd (_loop_notify fuel connection e)) = log e ++ repeat AEventSet n
    /\ event_is_set (snd (_loop_notify fuel connection e))
       = (event_is_set e || negb (Nat.eqb n 0)).
Proof.
  destruct (_loop_notify fuel connection e) as [r e'] eqn:E.
  apply wrap_exceptions_inv in E as (r0 & E & _).
  apply _loop_notify_while_sets in E. exact E.
Qed.

Lemma _loop_notify_while_returns connection :
  forall fuel e u e',
    _loop_notify_while fuel connection e = (Return u, e') ->
    connection_closed connection (world e') = true.
Proof.
  induction fuel as [|fuel IH]; intros e u e' Hrun; [discriminate|].
  cbn [_loop_notify_while] in Hrun.
  destruct (connection_closed connection (world e)) eqn:Hclosed.
  { now injection Hrun as <- <-. }
  destruct (async_for_notifies fuel connection e) as [[u1|exc|] e1];
    try discriminate.
  - eapply IH. exact Hrun.
  - destruct exc; try discriminate. eapply IH. exact Hrun.
Qed.

(** X18: [_loop_notify] returns only when it has seen the connection
    closed: the end of the notification stream or an operational failure of
    it is no reason to return. *)
Theorem _loop_notify_returns_closed fuel connection e e' :
  _loop_notify fuel connection e = (Return tt, e') ->
  connection_closed connection (world e') = true.
Proof.
  intros Hrun. apply wrap_exceptions_inv in Hrun as (r0 & Hrun & Hret).
  destruct r0 as [[]|exc|]; try discriminate.
  eapply _loop_notify_while_returns. exact Hrun.
Qed.

Lemma _loop_notify_while_not_operational connection :
  forall fuel e message,
    fst (_loop_notify_while fuel connection e)
    <> Raise (psycopg_OperationalError message).
Proof.
  induction fuel as [|fuel IH]; intros e message; [discriminate|].
  cbn [_loop_notify_while].
  destruct (connection_closed connection (world e)); [discriminate|].
  destruct (async_for_notifies fuel connection e) as [[u1|exc|] e1].
  - apply IH.
  - destruct exc; try discriminate. apply IH.
  - discriminate.
Qed.

Lemma async_for_notifies_raises connection :
  forall fuel e exc e',
    async_for_notifies fuel connection e = (Raise exc, e') ->
    exists w w', notifies_next connection w = (Raise exc, w').
Proof.
  induction fuel as [|fuel IH]; intros e exc e' Hrun; [discriminate|].
  cbn [async_for_notifies] in Hrun.
  destruct (notifies_next connection (world e)) as [[[ch|]|exc0|] w] eqn:E;
    try discriminate.
  - unfold bind, event_set in Hrun. eapply IH. exact Hrun.
  - injection Hrun as <- <-. eauto.
Qed.

Lemma _loop_notify_while_raises connection :
  forall fuel e exc e',
    _loop_notify_while fuel connection e = (Raise exc, e') ->
    (forall message, exc <> psycopg_OperationalError message)
    /\ exists w w', notifies_next connection w = (Raise exc, w').
Proof.
  induction fuel as [|fuel IH]; intros e exc e' Hrun; [discriminate|].
  cbn [_loop_notify_while] in Hrun.
  destruct (connection_closed connection (world e)); [discriminate|].
  destruct (async_for_notifies fuel connection e) as [[u1|exc1|] e1] eqn:E;
    try discriminate.
  - eapply IH. exact Hrun.
  - apply async_for_notifies_raises in E.
    destruct exc1; try (injection Hrun as <- <-; split; [discriminate | exact E]).
    eapply IH. exact Hrun.
Qed.

(** X19: an operational failure of the notification stream never ends
    [_loop_notify]: an exception it raises is the classification of an
    exception that the stream of this connection raised and that was not an
    operational failure. *)
Theorem _loop_notify_survives_operational fuel connection e exc e' :
  _loop_notify fuel connection e = (Raise exc, e') ->
  exists cause w w',
    notifies_next connection w = (Raise cause, w')
    /\ (forall message, cause <> psycopg_OperationalError message)
    /\ exc = classify cause.
Proof.
  unfold _loop_notify. rewrite wrap_exceptions_classify.
  destruct (_loop_notify_while fuel connection e) as [[u|cause|] e0] eqn:E;
    cbn [fst snd]; try discriminate.
  intros [= <- <-].
  apply _loop_notify_while_raises in E as (Hnot & w & w' & Hstream).
  exists cause, w, w'. split; [exact Hstream|]. split; [exact Hnot | reflexivity].
Qed.

Lemma listen_notify_while_never_returns self :
  forall fuel channels e,
    is_Return (fst (listen_notify_while fuel self channels e)) = false.
Proof.
  induction fuel as [|fuel IH]; intros channels e; [reflexivity|].
  cbn [listen_notify_while]. unfold bind at 1.
  destruct (pool self e) as [[p|exc|] e0]; try reflexivity.
  unfold bind at 1.
  match goal with
  | |- context [match ?b e0 with _ => _ end] => destruct (b e0) as [[u|exc|] e1]
  end; try reflexivity.
  apply IH.
Qed.

(** X20: with a pool of maximum size other than 1, [listen_notify] never
    returns: it ends by an exception or not at all. *)
Theorem listen_notify_never_returns fuel self p channels e :
  _pool self = Some p ->
  max_size p <> 1%Z ->
  is_Return (fst (listen_notify fuel self channels e)) = false.
Proof.
  intros Hp Hmax. unfold listen_notify. rewrite wrap_exceptions_classify.
  unfold bind, pool. rewrite Hp. unfold ret.
  destruct (Z.eqb_spec (max_size p) 1) as [Heq|_]; [contradiction|].
  cbn [fst].
  pose proof (listen_notify_while_never_returns self fuel channels e) as Hno.
  now destruct (fst (listen_notify_while fuel self channels e)).
Qed.

(** X21: on a connector that is not open [listen_notify] raises
    [AppNotOpen] and touches nothing. *)
Theorem listen_notify_not_open fuel self channels e :
  _pool self = None ->
  listen_notify fuel self channels e = (Raise AppNotOpen, e).
Proof.
  intros Hp. unfold listen_notify, wrap_exceptions, bind, pool, raise.
  now rewrite Hp.
Qed.

Lemma scope_advances_refl cur e : scope_advances cur e e cur.
Proof. exists []. now rewrite app_nil_r. Qed.

Lemma scope_advances_trans cur1 cur2 cur3 e1 e2 e3 :
  scope_advances cur1 e1 e2 cur2 ->
  scope_advances cur2 e2 e3 cur3 ->
  scope_advances cur1 e1 e3 cur3.
Proof.
  intros (d1 & Hl1 & Hs1) (d2 & Hl2 & Hs2). exists (d1 ++ d2). split.
  - now rewrite Hl2, Hl1, app_assoc.
  - now rewrite scoped_app, Hs1.
Qed.

Lemma scope_advances_step cur cur' e a b w :
  scoped cur [a] = Some cur' ->
  scope_advances cur e (mkEnv w b (log e ++ [a])) cur'.
Proof. intros Hs. now exists [a]. Qed.

Lemma scope_advances_world cur e w b : scope_advances cur e (mkEnv w b (log e)) cur.
Proof. exists []. cbn. now rewrite app_nil_r. Qed.

Lemma for_channels_scope connection :
  forall chs e r e',
    for_channel_names connection chs e = (r, e') ->
    scope_advances (Some connection) e e' (Some connection).
Proof.
  induction chs as [|ch chs IH]; intros e r e' Hrun.
  - injection Hrun as <- <-. apply scope_advances_refl.
  - cbn [for_channel_names] in Hrun. unfold bind, call in Hrun.
    destruct (connection_execute connection (listen_query ch) (world e)) as [r1 w1].
    assert (Hstep : forall ok,
              scoped (Some connection) [AExecute connection (listen_query ch) ok]
              = Some (Some connection))
      by (intros ok; cbn; now rewrite Nat.eqb_refl).
    destruct r1 as [u|exc|].
    + eapply scope_advances_trans; [|eapply IH; exact Hrun].
      apply scope_advances_step, Hstep.
    + injection Hrun as <- <-. apply scope_advances_step, Hstep.
    + injection Hrun as <- <-. apply scope_advances_step, Hstep.
Qed.

(** An [async with] block whose body keeps to its connection. *)
Lemma with_connection_scope {B} p (body : Connection -> M (Env World) B) e r e' :
  (forall connection e1 r2 e2,
      body connection e1 = (r2, e2) ->
      scope_advances (Some connection) e1 e2 (Some connection)) ->
  with_connection p body e = (r, e') ->
  exists cur', scope_advances None e e' cur' /\ (is_Pending r = false -> cur' = None).
Proof.
  intros Hbody. unfold with_connection.
  destruct (pool_connection_enter p (world e)) as [[connection|exc|] w].
  2,3: intros [= <- <-]; exists None; split; [apply scope_advances_world | reflexivity].
  set (e0 := mkEnv w (event_is_set e) (log e ++ [AEnter connection])).
  assert (Henter : scope_advances None e e0 (Some connection))
    by (now apply scope_advances_step).
  destruct (body connection e0) as [r2 e2] eqn:E2.
  apply Hbody in E2.
  assert (Hexit : forall w3,
            scope_advances None e
              (mkEnv w3 (event_is_set e2) (log e2 ++ [AExit connection])) None).
  { intros w3. eapply scope_advances_trans; [exact Henter|].
    eapply scope_advances_trans; [exact E2|].
    apply scope_advances_step. cbn. now rewrite Nat.eqb_refl. }
  destruct r2 as [b|exc|].
  - destruct (pool_connection_exit p connection (world e2)) as [[u'|exc'|] w3];
      intros [= <- <-]; exists None; split; auto.
  - destruct (pool_connection_exit p connection (world e2)) as [[u'|exc'|] w3];
      intros [= <- <-]; exists None; split; auto.
  - intros [= <- <-]. exists (Some connection). split; [|discriminate].
    eapply scope_advances_trans; eassumption.
Qed.

Lemma listen_body_scope channels fuel connection e1 r2 e2 :
  (let* _ := call (connection_set_autocommit connection true)
               (ASetAutocommit connection true) in
   let* _ := for_channels connection channels in
   let* _ := event_set in
   _loop_notify fuel connection) e1 = (r2, e2) ->
  scope_advances (Some connection) e1 e2 (Some connection).
Proof.
  unfold bind at 1. unfold call.
  destruct (connection_set_autocommit connection true (world e1)) as [r1 w1].
  set (ea := mkEnv w1 (event_is_set e1) _).
  assert (Ha : scope_advances (Some connection) e1 ea (Some connection))
    by (apply scope_advances_step; cbn; now rewrite Nat.eqb_refl).
  destruct r1 as [u|exc|].
  2,3: intros [= <- <-]; exact Ha.
  unfold bind at 1. unfold for_channels.
  destruct (for_channel_names connection (yields channels) ea) as [r3 e3] eqn:E3.
  apply for_channels_scope in E3.
  destruct r3 as [u3|exc|].
  2,3: intros [= <- <-]; eapply scope_advances_trans; eassumption.
  unfold bind, event_set. intros Hloop.
  apply wrap_exceptions_inv in Hloop as (r0 & Hloop & _).
  apply _loop_notify_while_sets in Hloop as (n & Hl & _). cbn [log] in Hl.
  eapply scope_advances_trans; [exact Ha|].
  eapply scope_advances_trans; [exact E3|].
  exists (AEventSet :: repeat AEventSet n). split.
  - rewrite Hl, <- app_assoc. reflexivity.
  - cbn [scoped]. apply scoped_sets.
Qed.

Lemma listen_notify_while_scope self :
  forall fuel channels e r e',
    listen_notify_while fuel self channels e = (r, e') ->
    exists cur', scope_advances None e e' cur' /\ (is_Pending r = false -> cur' = None).
Proof.
  induction fuel as [|fuel IH]; intros channels e r e' Hrun.
  - injection Hrun as <- <-. exists None. split; [apply scope_advances_refl | reflexivity].
  - cbn [listen_notify_while] in Hrun. unfold bind at 1 in Hrun. unfold pool in Hrun.
    destruct (_pool self) as [p|].
    2: { injection Hrun as <- <-. exists None.
         split; [apply scope_advances_refl | reflexivity]. }
    unfold ret in Hrun. unfold bind at 1 in Hrun.
    match type of Hrun with
    | context [match ?b e with _ => _ end] => destruct (b e) as [r1 e1] eqn:E1
    end.
    apply with_connection_scope in E1 as (cur1 & Hadv1 & Hcur1);
      [|intros connection e0 r2 e2; apply listen_body_scope].
    destruct r1 as [u|exc|].
    + rewrite (Hcur1 eq_refl) in Hadv1.
      apply IH in Hrun as (cur' & Hadv & Hcur).
      exists cur'. split; [|exact Hcur]. eapply scope_advances_trans; eassumption.
    + injection Hrun as <- <-. eauto.
    + injection Hrun as <- <-. eauto.
Qed.

(** X22: the bridge holds at most one connection at a time, changes
    autocommit and sends statements only on the connection it holds, and
    holds none once [listen_notify] has ended, by an exception as well. *)
Theorem listen_notify_scoped fuel self channels e :
  exists cur',
    scope_advances None e (snd (listen_notify fuel self channels e)) cur'
    /\ (is_Pending (fst (listen_notify fuel self channels e)) = false -> cur' = None).
Proof.
  destruct (wrap_exceptions_pending
              (let* p := pool self in
               if (max_size p =? 1)%Z
               then tell (AWarning listen_disabled_message)
               else listen_notify_while fuel self channels) e) as [Hp Hs].
  unfold listen_notify. rewrite Hp, Hs. clear Hp Hs.
  unfold bind, pool.
  destruct (_pool self) as [p|] eqn:Hpool.
  2: { exists None. split; [apply scope_advances_refl | reflexivity]. }
  unfold ret. destruct (max_size p =? 1)%Z.
  - exists None. split; [|reflexivity]. now apply scope_advances_step.
  - destruct (listen_notify_while fuel self channels e) as [r e'] eqn:E.
    eapply listen_notify_while_scope. exact E.
Qed.

Lemma _loop_notify_only_sets_aux fuel connection e :
  exists (n : nat) r e',
    _loop_notify fuel connection e = (r, e')
    /\ event_is_set e' = (event_is_set e || negb (Nat.eqb n 0)).
Proof.
  destruct (_loop_notify fuel connection e) as [r e'] eqn:E.
  pose proof E as E0.
  apply wrap_exceptions_inv in E as (r0 & E & _).
  apply _loop_notify_while_sets in E as (n & _ & Hf).
  exists n, r, e'. split; [reflexivity | exact Hf].
Qed.

Lemma for_channels_all_return connection :
  (forall query w, exists w', connection_execute connection query w = (Return tt, w')) ->
  forall chs e,
    exists e', for_channel_names connection chs e = (Return tt, e')
               /\ event_is_set e' = event_is_set e.
Proof.
  intros Hexec. induction chs as [|ch chs IH]; intros e.
  - exists e. split; reflexivity.
  - cbn [for_channel_names]. unfold bind, call.
    destruct (Hexec (listen_query ch) (world e)) as [w' ->].
    destruct (IH (mkEnv w' (event_is_set e)
                    (log e ++ [AExecute connection (listen_query ch) (is_Return (Return tt))])))
      as (e' & -> & Hf).
    exists e'. split; [reflexivity | exact Hf].
Qed.

(** X23: the handshake: when the pool hands out a connection, autocommit is
    set and every subscribe statement on that connection returns, the event
    is set, and it is still set wherever the run of [listen_notify] stands
    afterwards. *)
Theorem listen_notify_handshake fuel self p channels e connection w1 w2 :
  _pool self = Some p ->
  max_size p <> 1%Z ->
  pool_connection_enter p (world e) = (Return connection, w1) ->
  connection_set_autocommit connection true w1 = (Return tt, w2) ->
  (forall query w, exists w', connection_execute connection query w = (Return tt, w')) ->
  event_is_set (snd (listen_notify (Datatypes.S fuel) self channels e)) = true.
Proof.
  intros Hp Hmax Henter Hauto Hexec.
  destruct (wrap_exceptions_pending
              (let* p := pool self in
               if (max_size p =? 1)%Z
               then tell (AWarning listen_disabled_message)
               else listen_notify_while (Datatypes.S fuel) self channels) e) as [_ Hs].
  unfold listen_notify. rewrite Hs. clear Hs.
  unfold bind at 1. unfold pool at 1. rewrite Hp. unfold ret.
  destruct (Z.eqb_spec (max_size p) 1) as [Heq|_]; [contradiction|].
  cbn [listen_notify_while]. unfold bind at 1. unfold pool. rewrite Hp. unfold ret.
  unfold bind at 1. unfold with_connection. rewrite Henter.
  unfold bind at 1. unfold call at 1. cbn [world event_is_set log]. rewrite Hauto.
  unfold bind at 1.
  unfold for_channels.
  match goal with
  | |- context [for_channel_names connection (yields channels) ?e0] =>
      destruct (for_channels_all_return connection Hexec (yields channels) e0)
        as (e3 & -> & Hf3)
  end.
  unfold bind at 1. unfold event_set at 1.
  match goal with
  | |- context [_loop_notify fuel connection ?e4] =>
      destruct (_loop_notify_only_sets_aux fuel connection e4) as (n & r5 & e5 & -> & Hf5)
  end.
  cbn [event_is_set orb] in Hf5.
  assert (Hwhile : forall e6,
            event_is_set e6 = true ->
            event_is_set
              (snd (listen_notify_while fuel self (after_for channels) e6)) = true).
  { intros e6 Hset.
    destruct (listen_notify_while fuel self (after_for channels) e6)
      as [r7 e7] eqn:E7.
    apply (listen_notify_while_advances [] self) in E7 as (st' & Hflag & _);
      try reflexivity.
    now apply Hflag. }
  destruct r5 as [u|exc|].
  - destruct (pool_connection_exit p connection (world e5)) as [[u'|exc'|] w6];
      cbv beta iota; try apply Hwhile; exact Hf5.
  - destruct (pool_connection_exit p connection (world e5)) as [[u'|exc'|] w6];
      cbv beta iota; try apply Hwhile; exact Hf5.
  - exact Hf5.
Qed.

(** X24: when the subscribe statement of the first name [channels] gives
    raises, [listen_notify] ends
    with that exception classified; the event has not been set and the
    connection has been given back. *)
Theorem listen_notify_subscribe_fails fuel self p channels channel_name rest e
    connection w1 w2 w3 w4 exc :
  yields channels = channel_name :: rest ->
  _pool self = Some p ->
  max_size p <> 1%Z ->
  pool_connection_enter p (world e) = (Return connection, w1) ->
  connection_set_autocommit connection true w1 = (Return tt, w2) ->
  connection_execute connection (listen_query channel_name) w2 = (Raise exc, w3) ->
  pool_connection_exit p connection w3 = (Return tt, w4) ->
  listen_notify (Datatypes.S fuel) self channels e
  = (Raise (classify exc),
     mkEnv w4 (event_is_set e)
       (log e ++ [AEnter connection; ASetAutocommit connection true true;
                  AExecute connection (listen_query channel_name) false;
                  AExit connection])).
Proof.
  intros Hfirst Hp Hmax Henter Hauto Hexec Hexit.
  unfold listen_notify. rewrite wrap_exceptions_classify.
  unfold bind at 1 2. unfold pool at 1 2. rewrite Hp. unfold ret.
  destruct (Z.eqb_spec (max_size p) 1) as [Heq|_]; [contradiction|].
  cbn [listen_notify_while]. unfold for_channels. rewrite Hfirst.
  cbn [for_channel_names].
  unfold bind, pool, ret, with_connection, call.
  rewrite Hp, Henter. cbn [world event_is_set log]. rewrite Hauto.
  cbn [world event_is_set log]. rewrite Hexec.
  cbn [world event_is_set log]. rewrite Hexit.
  cbn [fst snd is_Return]. rewrite <- !app_assoc. reflexivity.
Qed.
End BridgeExtras.

(** ** The arguments of the pool *)

(** X25: in what [_adapt_pool_args] returns, a value given by the caller
    wins for every key but [configure]; a key the caller did not give has
    its default; and [configure] is always the connector's own closure,
    which holds the caller's hook, if any. *)
Theorem _adapt_pool_args_lookup (pool_args : gmap string pool_arg) json_loads :
  _adapt_pool_args pool_args json_loads !! "configure"
  = Some (ArgConfigure (pool_args !! "configure") json_loads)
  /\ (forall key value,
        key <> "configure" ->
        pool_args !! key = Some value ->
        _adapt_pool_args pool_args json_loads !! key = Some value)
  /\ (forall key,
        pool_args !! key = None ->
        _adapt_pool_args pool_args json_loads !! key
        = default_pool_args (ArgConfigure (pool_args !! "configure") json_loads) !! key)
  /\ (pool_args = ∅ ->
      _adapt_pool_args pool_args json_loads !! "conninfo" = Some (ArgObject (OStr ""))
      /\ _adapt_pool_args pool_args json_loads !! "min_size" = Some (ArgObject (OInt 1))
      /\ _adapt_pool_args pool_args json_loads !! "max_size" = Some (ArgObject (OInt 10))
      /\ _adapt_pool_args pool_args json_loads !! "open" = Some (ArgObject (OBool false))).
Proof.
  unfold _adapt_pool_args. cbv zeta. split; [|split; [|split]].
  - rewrite lookup_union_r by apply lookup_delete_eq. reflexivity.
  - intros key value Hkey Hv. apply lookup_union_Some_l.
    now rewrite lookup_delete_ne.
  - intros key Hnone. apply lookup_union_r.
    destruct (decide (key = "configure")) as [->|Hne].
    + apply lookup_delete_eq.
    + now rewrite lookup_delete_ne.
  - intros ->. rewrite delete_empty, (left_id_L ∅ (∪)).
    repeat split; reflexivity.
Qed.

Section Configure.
Context {World : Type} `{Hooks World}.

(** X26: the [configure] closure awaits the caller's hook first and installs
    [json_loads] after it; when the hook raises, [json_loads] is not
    installed and the exception is classified; nothing it raises is an
    instance of [psycopg.Error]. *)
Theorem configure_order base_configure json_loads connection (w : World) :
  (forall exc,
      fst (configure base_configure json_loads connection w) = Raise exc ->
      is_psycopg_Error exc = false)
  /\ (forall hook exc w',
        base_configure = Some hook ->
        pool_arg_truthy hook = true ->
        call_base_configure hook connection w = (Raise exc, w') ->
        configure base_configure json_loads connection w = (Raise (classify exc), w'))
  /\ (forall hook loads w',
        base_configure = Some hook ->
        pool_arg_truthy hook = true ->
        json_loads = Some loads ->
        call_base_configure hook connection w = (Return tt, w') ->
        configure base_configure json_loads connection w
        = wrap_exceptions (set_json_loads loads connection) w')
  /\ (json_loads = None ->
      (base_configure = None
       \/ exists hook, base_configure = Some hook /\ pool_arg_truthy hook = false) ->
      configure base_configure json_loads connection w = (Return tt, w)).
Proof.
  split; [|split; [|split]].
  - intros exc. unfold configure. apply wrap_exceptions_no_psycopg.
  - intros hook exc w' -> Hhook Hcall. unfold configure.
    rewrite wrap_exceptions_classify. unfold bind. rewrite Hhook, Hcall. reflexivity.
  - intros hook loads w' -> Hhook -> Hcall. unfold configure.
    rewrite !wrap_exceptions_classify. unfold bind. rewrite Hhook, Hcall. reflexivity.
  - intros -> [->|(hook & -> & Hhook)]; unfold configure, wrap_exceptions, bind, ret;
      now rewrite ?Hhook.
Qed.
End Configure.

(** ** The further properties at concrete inputs *)

Lemma retrier_attempts_bounded_witness :
  (snd (snd (wrap_query_exceptions (fun _ => counted (stale_until 100))
               (connector_with (Some (mkPool 0 3))) (O, O))) <= 4)%nat
  /\ (1 <= snd (snd (wrap_query_exceptions (fun _ => counted (stale_until 100))
                       (connector_with (Some (mkPool 0 3))) (O, O))))%nat.
Proof.
  destruct (retrier_attempts_bounded (fun _ => stale_until 100)
              (connector_with (Some (mkPool 0 3))) O) as [Hle Hge].
  split; [exact Hle | apply Hge; cbn; lia].
Defined.

Lemma retrier_return_sound_witness :
  stale_attempts (stale_until 2) 2 O
  /\ fst (stale_until 2 (state_after (stale_until 2) 2 O)) = Return 2%nat.
Proof.
  destruct (retrier_return_sound (fun _ => stale_until 2)
              (connector_with (Some (mkPool 0 3))) O 2%nat 3%nat 3%nat eq_refl)
    as (_ & _ & Hs & Hl).
  split; assumption.
Defined.

Lemma decorated_exhausted_witness :
  exists last,
    fst (stale_until 100 (state_after (stale_until 100) 3 O)) = Raise last
    /\ wrap_exceptions
         (wrap_query_exceptions (fun _ => counted (stale_until 100))
            (connector_with (Some (mkPool 0 3)))) (O, O)
       = (Raise (ConnectorException
                   (Some "Could not get a valid connection after 4 tries")
                   (Some last)),
          (4%nat, 4%nat)).
Proof.
  apply (decorated_exhausted (fun _ => stale_until 100)
           (connector_with (Some (mkPool 0 3))) (mkPool 0 3) O).
  - reflexivity.
  - cbn. lia.
  - apply stale_until_attempts. vm_compute. lia.
Defined.

Lemma decorated_classifies_witness :
  wrap_exceptions
    (wrap_query_exceptions
       (fun _ => counted (fun n : nat =>
          (@Raise nat (psycopg_OperationalError "connection refused"), Datatypes.S n)))
       (connector_with (Some (mkPool 0 3)))) (O, O)
  = (Raise (ConnectorException None
              (Some (psycopg_OperationalError "connection refused"))),
     (1%nat, 1%nat)).
Proof.
  refine (proj1 (decorated_classifies
           (fun _ n => (@Raise nat (psycopg_OperationalError "connection refused"),
                        Datatypes.S n))
           (connector_with (Some (mkPool 0 3))) O O
           (psycopg_OperationalError "connection refused") _ _ _ _)).
  - vm_compute. lia.
  - intros i Hi. lia.
  - reflexivity.
  - intros message [= <-]. reflexivity.
Defined.

Lemma open_async_create_fails_witness :
  open_async (H := faulty_driver) None (connector_with None, mkEnv O false [])
  = (Raise (ConnectorException None
              (Some (psycopg_OperationalError "connection refused"))),
     (connector_with None, mkEnv 1%nat false [])).
Proof.
  refine (proj1 (open_async_create_fails (H := faulty_driver) (connector_with None)
           (mkEnv O false [])
           (psycopg_OperationalError "connection refused") 1%nat _ _));
    reflexivity.
Defined.

Lemma open_async_failed_open_sticks_witness :
  open_async (H := faulty_driver) None
    (mkConnector None None (Some (mkPool 7 5)) [] true,
     mkEnv 1%nat false [APoolOpen (mkPool 7 5) false])
  = (Return tt,
     (mkConnector None None (Some (mkPool 7 5)) [] true,
      mkEnv 1%nat false [APoolOpen (mkPool 7 5) false])).
Proof.
  refine (proj2 (open_async_failed_open_sticks (H := faulty_driver)
           (connector_with None) (mkEnv O false []) (mkPool 7 5)
           (psycopg_OperationalError "the pool has already been closed") 1%nat None
           _ _));
    reflexivity.
Defined.

Lemma close_async_close_fails_witness :
  close_async (H := faulty_driver)
    (connector_with (Some (mkPool 0 10)), mkEnv O false [])
  = (Raise (ConnectorException None (Some (psycopg_Error "close failed"))),
     (connector_with (Some (mkPool 0 10)),
      mkEnv 1%nat false [APoolClose (mkPool 0 10) false])).
Proof.
  apply (close_async_close_fails (H := faulty_driver)
           (connector_with (Some (mkPool 0 10))) (mkEnv O false []) (mkPool 0 10)
           (psycopg_Error "close failed") 1%nat);
    reflexivity.
Defined.

Lemma close_async_idempotent_witness :
  close_async (connector_with None, mkEnv 3%nat false [APoolClose (mkPool 0 10) true])
  = (Return tt,
     (connector_with None, mkEnv 3%nat false [APoolClose (mkPool 0 10) true])).
Proof.
  apply (close_async_idempotent
           (connector_with (Some (mkPool 0 10)), mkEnv 2%nat false [])).
  reflexivity.
Defined.

Lemma external_pool_untouched_witness :
  run_calls [CallClose; CallOpen None; CallClose]
    (mkConnector None None (Some (mkPool 7 5)) [] true,
     mkEnv 1%nat false [APoolOpen (mkPool 7 5) true])
  = (mkConnector None None (Some (mkPool 7 5)) [] true,
     mkEnv 1%nat false [APoolOpen (mkPool 7 5) true]).
Proof.
  refine (proj1 (external_pool_untouched (connector_with None) (mkEnv O false [])
           (mkPool 7 5) (Return tt) _ [CallClose; CallOpen None; CallClose] _ _)).
  - reflexivity.
  - reflexivity.
Defined.

Lemma ownership_flag_truthful_witness :
  ownership_recorded [CallOpen None; CallClose; CallOpen (Some (mkPool 7 5)); CallClose]
    (run_calls [CallOpen None; CallClose; CallOpen (Some (mkPool 7 5)); CallClose]
       (connector_with None, mkEnv O false [])).
Proof.
  apply (ownership_flag_truthful
           [CallOpen None; CallClose; CallOpen (Some (mkPool 7 5)); CallClose]
           (connector_with None) (mkEnv O false []));
    reflexivity.
Defined.

Lemma query_methods_not_open_witness :
  execute_query_one_async "SELECT 1" ∅ (connector_with None) (mkEnv O false [])
  = (Raise AppNotOpen, mkEnv O false []).
Proof.
  refine (proj1 (proj2 (query_methods_not_open "SELECT 1" ∅ (connector_with None)
           (mkEnv O false []) _))).
  reflexivity.
Defined.

Lemma execute_query_one_async_returns_witness :
  execute_query_one_async "SELECT 1" ∅ (connector_with (Some (mkPool 0 10)))
    (mkEnv O false [])
  = (Return None,
     mkEnv 4%nat false
       [AEnter 0%nat; ACursorExecute 0%nat "SELECT 1" (_wrap_json (connector_with (Some (mkPool 0 10))) ∅) true;
        AExit 0%nat]).
Proof.
  apply (execute_query_one_async_returns (connector_with (Some (mkPool 0 10)))
           (mkPool 0 10) "SELECT 1" ∅ (mkEnv O false []) 0%nat
           1%nat 2%nat 3%nat 4%nat None).
  - reflexivity.
  - cbn. lia.
  - reflexivity.
  - reflexivity.
  - reflexivity.
  - reflexivity.
Defined.

Lemma execute_query_async_unique_violation_witness :
  execute_query_async (H := faulty_driver) "INSERT" ∅
    (connector_with (Some (mkPool 0 10))) (mkEnv 3%nat false [])
  = (Raise (UniqueViolation (Some "procrastinate_jobs_queueing_lock_idx")),
     mkEnv 6%nat false
       [AEnter 3%nat;
        ACursorExecute 3%nat "INSERT" (_wrap_json (connector_with (Some (mkPool 0 10))) ∅) false;
        AExit 3%nat]).
Proof.
  apply (execute_query_async_unique_violation (H := faulty_driver)
           (connector_with (Some (mkPool 0 10))) (mkPool 0 10) "INSERT" ∅
           (mkEnv 3%nat false []) 3%nat 4%nat 5%nat 6%nat
           "duplicate key value violates unique constraint"
           (Some "procrastinate_jobs_queueing_lock_idx")).
  - reflexivity.
  - cbn. lia.
  - reflexivity.
  - reflexivity.
  - reflexivity.
Defined.

Lemma _loop_notify_returns_closed_witness :
  connection_closed (Driver := clock_driver) 0%nat 6%nat = true.
Proof.
  apply (_loop_notify_returns_closed 12 0%nat (mkEnv O false [])
           (mkEnv 6%nat true [AEventSet; AEventSet; AEventSet])).
  reflexivity.
Defined.

Lemma _loop_notify_survives_operational_witness :
  exists cause w w',
    notifies_next (Driver := faulty_driver) 0%nat w = (Raise cause, w')
    /\ (forall message, cause <> psycopg_OperationalError message)
    /\ ConnectorException None (Some (psycopg_Error "protocol error")) = classify cause.
Proof.
  apply (_loop_notify_survives_operational (H := faulty_driver) 4 0%nat
           (mkEnv 3%nat false []) _ (mkEnv 4%nat false [])).
  reflexivity.
Defined.

Lemma listen_notify_never_returns_witness :
  is_Return (fst (listen_notify 12 (connector_with (Some (mkPool 0 10)))
                    (Sequence ["a"; "b"]) (mkEnv O false []))) = false.
Proof.
  apply (listen_notify_never_returns 12 (connector_with (Some (mkPool 0 10)))
           (mkPool 0 10) (Sequence ["a"; "b"]) (mkEnv O false [])).
  - reflexivity.
  - cbn. lia.
Defined.

Lemma listen_notify_not_open_witness :
  listen_notify 12 (connector_with None) (Iterator ["a"; "b"]) (mkEnv O false [])
  = (Raise AppNotOpen, mkEnv O false []).
Proof.
  apply (listen_notify_not_open 12 (connector_with None) (Iterator ["a"; "b"])
           (mkEnv O false [])).
  reflexivity.
Defined.

Lemma listen_notify_handshake_witness :
  event_is_set
    (snd (listen_notify (H := faulty_driver) 4 (connector_with (Some (mkPool 0 10)))
            (Iterator ["a"; "b"]) (mkEnv O false []))) = true.
Proof.
  apply (listen_notify_handshake (H := faulty_driver) 3
           (connector_with (Some (mkPool 0 10))) (mkPool 0 10) (Iterator ["a"; "b"])
           (mkEnv O false []) 0%nat 1%nat 2%nat).
  - reflexivity.
  - cbn. lia.
  - reflexivity.
  - reflexivity.
  - intros query w. exists (Datatypes.S w). reflexivity.
Defined.

Lemma listen_notify_subscribe_fails_witness :
  listen_notify (H := faulty_driver) 4 (connector_with (Some (mkPool 0 10)))
    (Sequence ["a"; "b"]) (mkEnv 3%nat false [])
  = (Raise (ConnectorException None (Some (psycopg_Error "syntax error"))),
     mkEnv 7%nat false
       [AEnter 3%nat; ASetAutocommit 3%nat true true;
        AExecute 3%nat (SQL_format_Identifier "LISTEN {channel_name};" "a") false;
        AExit 3%nat]).
Proof.
  apply (listen_notify_subscribe_fails (H := faulty_driver) 3
           (connector_with (Some (mkPool 0 10))) (mkPool 0 10) (Sequence ["a"; "b"])
           "a" ["b"] (mkEnv 3%nat false []) 3%nat 4%nat 5%nat 6%nat 7%nat
           (psycopg_Error "syntax error")).
  - reflexivity.
  - reflexivity.
  - cbn. lia.
  - reflexivity.
  - reflexivity.
  - reflexivity.
  - reflexivity.
Defined.

Lemma _adapt_pool_args_lookup_witness :
  _adapt_pool_args
    (<["max_size" := ArgObject (OInt 20)]>
       (<["configure" := ArgCallable (Callable "my_configure")]> ∅))
    (Some (Callable "json.loads"))
  !! "max_size" = Some (ArgObject (OInt 20))
  /\ _adapt_pool_args
       (<["max_size" := ArgObject (OInt 20)]>
          (<["configure" := ArgCallable (Callable "my_configure")]> ∅))
       (Some (Callable "json.loads"))
     !! "configure"
     = Some (ArgConfigure (Some (ArgCallable (Callable "my_configure")))
               (Some (Callable "json.loads")))
  /\ _adapt_pool_args ∅ None !! "max_size" = Some (ArgObject (OInt 10)).
Proof.
  destruct (_adapt_pool_args_lookup
              (<["max_size" := ArgObject (OInt 20)]>
                 (<["configure" := ArgCallable (Callable "my_configure")]> ∅))
              (Some (Callable "json.loads"))) as (Hconf & Hgiven & _ & _).
  destruct (_adapt_pool_args_lookup ∅ None) as (_ & _ & _ & Hdefault).
  split; [|split].
  - apply Hgiven; [discriminate | reflexivity].
  - exact Hconf.
  - exact (proj1 (proj2 (proj2 (Hdefault eq_refl)))).
Defined.

Lemma configure_order_witness :
  configure (H := counting_hooks) (Some (ArgCallable (Callable "hook")))
    (Some (Callable "json.loads")) 1%nat O
  = (Raise (ConnectorException None (Some (psycopg_Error "SET failed"))), 1%nat).
Proof.
  destruct (configure_order (H := counting_hooks) (Some (ArgCallable (Callable "hook")))
              (Some (Callable "json.loads")) 1%nat O) as (_ & Hfails & _).
  apply (Hfails (ArgCallable (Callable "hook")) (psycopg_Error "SET failed") 1%nat);
    reflexivity.
Defined.


(** ** Where the code parts from its specification *)

Lemma since_last_enter_no_enter block :
  (forall c, ~ In (AEnter c) block) ->
  forall acc, since_last_enter acc block = acc ++ block.
Proof.
  induction block as [|a block IH]; intros Hno acc; cbn [since_last_enter].
  - now rewrite app_nil_r.
  - assert (Hrest : forall c, ~ In (AEnter c) block)
      by (intros c Hin; apply (Hno c); now right).
    destruct a; try (rewrite (IH Hrest), <- app_assoc; reflexivity).
    exfalso. apply (Hno connection). now left.
Qed.

Lemma since_last_enter_block earlier connection block :
  (forall c, ~ In (AEnter c) block) ->
  forall acc, since_last_enter acc (earlier ++ AEnter connection :: block) = block.
Proof.
  intros Hno. induction earlier as [|a earlier IH]; intros acc.
  - cbn [app since_last_enter]. now apply since_last_enter_no_enter.
  - cbn [app]. destruct a; cbn [since_last_enter]; apply IH.
Qed.

(** C2: with a one-shot iterable as [channels] (an iterator over two names),
    on a driver whose connection is found closed after a while, the second
    [async with] block of [listen_notify] finds the iterable exhausted: it
    sends no subscribe statement on the new connection and still calls
    [event.set()].  The record of the run is not one in which every
    [event.set()] follows the subscribe statements of all channels on the
    connection in use. *)
Theorem listen_notify_one_shot_unsubscribed :
  log (snd (listen_notify 5 (connector_with (Some (mkPool 0 10)))
              (Iterator ["a"; "b"]) (mkEnv O false [])))
  = [AEnter 0%nat; ASetAutocommit 0%nat true true;
     AExecute 0%nat (SQL_format_Identifier "LISTEN {channel_name};" "a") true;
     AExecute 0%nat (SQL_format_Identifier "LISTEN {channel_name};" "b") true;
     AEventSet; AEventSet; AExit 0%nat;
     AEnter 7%nat; ASetAutocommit 7%nat true true; AEventSet; AEventSet]
  /\ ~ set_after_subscriptions "LISTEN {channel_name};" ["a"; "b"]
        (log (snd (listen_notify 5 (connector_with (Some (mkPool 0 10)))
                     (Iterator ["a"; "b"]) (mkEnv O false [])))).
Proof.
  assert (Hlog :
    log (snd (listen_notify 5 (connector_with (Some (mkPool 0 10)))
                (Iterator ["a"; "b"]) (mkEnv O false [])))
    = [AEnter 0%nat; ASetAutocommit 0%nat true true;
       AExecute 0%nat (SQL_format_Identifier "LISTEN {channel_name};" "a") true;
       AExecute 0%nat (SQL_format_Identifier "LISTEN {channel_name};" "b") true;
       AEventSet; AEventSet; AExit 0%nat;
       AEnter 7%nat; ASetAutocommit 7%nat true true]
      ++ AEventSet :: [AEventSet])
    by (vm_compute; reflexivity).
  split; [rewrite Hlog; reflexivity|].
  intros Hset.
  destruct (Hset _ _ Hlog) as (connection & earlier & block & Hsplit & Hblock & Hsubs).
  assert (Hb : since_last_enter []
                 [AEnter 0%nat; ASetAutocommit 0%nat true true;
                  AExecute 0%nat (SQL_format_Identifier "LISTEN {channel_name};" "a") true;
                  AExecute 0%nat (SQL_format_Identifier "LISTEN {channel_name};" "b") true;
                  AEventSet; AEventSet; AExit 0%nat;
                  AEnter 7%nat; ASetAutocommit 7%nat true true] = block).
  { rewrite Hsplit. apply since_last_enter_block. intros c. apply Hblock. }
  cbn in Hb. subst block.
  specialize (Hsubs "a" (or_introl eq_refl)).
  destruct Hsubs as [Heq|[]]. discriminate.
Qed.

(** C4: [open_async] is not decorated.  Given a pool whose [open()] raises an
    operational failure of the driver, it raises that failure as it is: an
    instance of [psycopg.Error] reaches the caller. *)
Theorem open_async_leaks_driver_error :
  fst (open_async (H := faulty_driver) (Some (mkPool 7 5))
         (connector_with None, mkEnv O false []))
  = Raise (psycopg_OperationalError "the pool has already been closed")
  /\ is_psycopg_Error (psycopg_OperationalError "the pool has already been closed")
     = true.
Proof. split; reflexivity. Qed.
